(** * Verification of fastapi/utils.py

    Shallow embedding of the helpers of [fastapi.utils]: the status-code
    predicate, path-parameter extraction, response-field construction and
    cloning, deep dictionary merge and default resolution. *)

From Stdlib Require Import ZArith Ascii String List Bool Lia.
From stdpp Require Import base gmap strings.
Import ListNotations.


(* ================================================================== *)
(** ** Python [int(str)] on a string *)

Module PyInt.

(** Characters Python's [str.strip] / [int] treat as white space, for
    the code points 0..255 a Rocq [ascii] can hold (Latin-1). *)
Definition is_space (c : ascii) : bool :=
  let n := nat_of_ascii c in
  ((9 <=? n) && (n <=? 13)) || ((28 <=? n) && (n <=? 32))
  || (n =? 133) || (n =? 160).

Definition is_digit (c : ascii) : bool :=
  let n := nat_of_ascii c in (48 <=? n) && (n <=? 57).

Definition digit_val (c : ascii) : Z := Z.of_nat (nat_of_ascii c - 48).

Fixpoint drop_space (l : list ascii) : list ascii :=
  match l with
  | c :: t => if is_space c then drop_space t else l
  | [] => []
  end.

Definition strip (l : list ascii) : list ascii :=
  rev (drop_space (rev (drop_space l))).

(** Digits with single underscores between them, accumulated in [acc];
    [prev_us] is true right after an underscore. *)
Fixpoint digits (acc : Z) (prev_us : bool) (l : list ascii) : option Z :=
  match l with
  | [] => if prev_us then None else Some acc
  | c :: t =>
      if is_digit c then digits (acc * 10 + digit_val c) false t
      else if Ascii.eqb c "_"%char then
        if prev_us then None else digits acc true t
      else None
  end.

Definition unsigned (l : list ascii) : option Z :=
  match l with
  | c :: t => if is_digit c then digits (digit_val c) false t else None
  | [] => None
  end.

(** [int(s)] for a [str] argument (base 10): [None] is a [ValueError]. *)
Definition py_int (s : string) : option Z :=
  match strip (list_ascii_of_string s) with
  | "-"%char :: t => option_map Z.opp (unsigned t)
  | "+"%char :: t => unsigned t
  | l => unsigned l
  end.

End PyInt.

(* ================================================================== *)
(** ** [is_body_allowed_for_status_code] *)

Module StatusCode.
Import PyInt.

(** [Union[int, str, None]] *)
Inductive status_code :=
| SNone
| SInt (n : Z)
| SStr (s : string).

(** A call either returns a [bool] or raises [ValueError] (from [int]). *)
Inductive outcome :=
| Returns (b : bool)
| ValueError.

Definition patterned_fields : list string :=
  ["default"; "1XX"; "2XX"; "3XX"; "4XX"; "5XX"]%string.

(** [status_code in {...}]: an [int] is never equal to a [str]. *)
Definition in_patterned (sc : status_code) : bool :=
  match sc with
  | SStr s => existsb (String.eqb s) patterned_fields
  | _ => false
  end.

(** [int(status_code)] *)
Definition to_int (sc : status_code) : option Z :=
  match sc with
  | SInt n => Some n
  | SStr s => py_int s
  | SNone => None
  end.

Definition is_body_allowed_for_status_code (sc : status_code) : outcome :=
  match sc with
  | SNone => Returns true
  | _ =>
    if in_patterned sc then Returns true
    else match to_int sc with
         | Some current_status_code =>
             Returns (negb ((current_status_code <? 200)%Z
                            || existsb (Z.eqb current_status_code) [204; 304]%Z))
         | None => ValueError
         end
  end.

End StatusCode.

(* ================================================================== *)
(** ** [get_path_param_names]: [set(re.findall("{(.*?)}", path))] *)

Module PathParams.

(** The lazy [.*?] followed by [}], tried from the character after a
    [{]: it first tries [}], otherwise consumes one character with [.],
    which matches anything but a newline.  Returns the group and the
    text after the closing brace. *)
Fixpoint lazy_close (s : list ascii) : option (list ascii * list ascii) :=
  match s with
  | [] => None
  | c :: t =>
      if Ascii.eqb c "}" then Some ([], t)
      else if Ascii.eqb c "010" then None
      else option_map (fun '(x, r) => (c :: x, r)) (lazy_close t)
  end.

(** A match of ["{(.*?)}"] starting at the head of [s]. *)
Definition match_at (s : list ascii) : option (list ascii * list ascii) :=
  match s with
  | "{"%char :: t => lazy_close t
  | _ => None
  end.

(** [re.findall] scans left to right: after a match it resumes behind
    it, otherwise one position further.  Each step consumes at least one
    character, so [length s] steps suffice. *)
Fixpoint findall_fuel (fuel : nat) (s : list ascii) : list string :=
  match fuel with
  | O => []
  | S fuel' =>
    match s with
    | [] => []
    | _ :: t =>
      match match_at s with
      | Some (x, rest) => string_of_list_ascii x :: findall_fuel fuel' rest
      | None => findall_fuel fuel' t
      end
    end
  end.

Definition findall_braces (path : string) : list string :=
  let s := list_ascii_of_string path in findall_fuel (length s) s.

Definition get_path_param_names (path : string) : gset string :=
  list_to_set (findall_braces path).

(** Every [{] of [pre] is followed, inside [pre], by a [}]: the scan is
    outside any match at the end of [pre]. *)
Definition closed (pre : list ascii) : Prop :=
  forall a b, pre = a ++ "{"%char :: b -> In "}"%char b.

End PathParams.

(* ================================================================== *)
(** ** [get_value_or_default] *)

Module DefaultValue.

(** An argument is a [DefaultPlaceholder] wrapping a value, or a value
    set by the caller. *)
Inductive candidate (A : Type) :=
| DefaultPlaceholder (value : A)
| Value (v : A).
Arguments DefaultPlaceholder {A} _.
Arguments Value {A} _.

Definition is_placeholder {A} (c : candidate A) : bool :=
  match c with DefaultPlaceholder _ => true | Value _ => false end.

(** [for item in items: if not isinstance(item, DefaultPlaceholder):
    return item] *)
Fixpoint first_not_placeholder {A} (items : list (candidate A)) : option (candidate A) :=
  match items with
  | [] => None
  | item :: rest =>
      if negb (is_placeholder item) then Some item else first_not_placeholder rest
  end.

Definition get_value_or_default {A} (first_item : candidate A)
    (extra_items : list (candidate A)) : candidate A :=
  let items := first_item :: extra_items in
  match first_not_placeholder items with
  | Some item => item
  | None => first_item
  end.

End DefaultValue.

(* ================================================================== *)
(** ** [deep_dict_update] *)

Module DeepDict.
#[local] Set Warnings "-register-all".
Section DeepDict.

(** Keys of any hashable type with decidable equality, and the values
    that are neither [dict] nor [list] as atoms. *)
Context {K A : Type} `{EqDecision K}.

(** A Python value as far as [deep_dict_update] inspects it: a [dict]
    (its items in insertion order), a [list], or anything else. *)
Inductive pyval :=
| PAtom (a : A)
| PList (l : list pyval)
| PDict (d : list (K * pyval)).

Definition dict := list (K * pyval).

(** [d.get(k)] *)
Fixpoint dict_get (k : K) (d : dict) : option pyval :=
  match d with
  | [] => None
  | (k', v) :: d' => if decide (k = k') then Some v else dict_get k d'
  end.

(** [d[k] = v]: an existing key keeps its position, a new one is
    appended. *)
Fixpoint dict_set (k : K) (v : pyval) (d : dict) : dict :=
  match d with
  | [] => [(k, v)]
  | (k', v') :: d' => if decide (k = k') then (k, v) :: d' else (k', v') :: dict_set k v d'
  end.

(** The contents of [main_dict] after [deep_dict_update(main_dict,
    update_dict)], which mutates [main_dict] in place and returns
    [None]: the items of [update_dict] are processed in order.  The
    recursion is on the update value (a [dict] with its items), so that
    the recursive call on a nested [dict] is structural. *)
Fixpoint deep_dict_update_val (main_dict : dict) (update : pyval) {struct update} : dict :=
  match update with
  | PDict update_dict =>
    (fix loop (main_dict : dict) (items : list (K * pyval)) {struct items} : dict :=
       match items with
       | [] => main_dict
       | (key, value) :: rest =>
         let main_dict' :=
           match dict_get key main_dict, value with
           | Some (PDict m), PDict _ =>
               dict_set key (PDict (deep_dict_update_val m value)) main_dict
           | Some (PList m), PList u => dict_set key (PList (m ++ u)) main_dict
           | _, _ => dict_set key value main_dict
           end in
         loop main_dict' rest
       end) main_dict update_dict
  | _ => main_dict
  end.

Definition deep_dict_update (main_dict update_dict : dict) : dict :=
  deep_dict_update_val main_dict (PDict update_dict).

End DeepDict.
End DeepDict.

(* ================================================================== *)
(** ** Field metadata: [create_response_field] and [create_cloned_field] *)

Module Fields.

(** Object identities in the Python heap. *)
Definition loc := nat.

(** The [type_] of a field as [create_cloned_field] inspects it: a
    [BaseModel] subclass, a dataclass (with its [__pydantic_model__] when
    it has one), or any other type. *)
Inductive pytype :=
| TModel (c : loc)
| TDataclass (d : nat) (pydantic_model : option loc)
| TOther (t : nat).

(** Objects the code only copies by reference ([field_info], the
    validator lists, the default value, ...) are identified by a number. *)
Definition obj := nat.

(** The attributes of a (pydantic v1) [ModelField] that the code reads
    or writes. *)
Record mfield := MField {
  name : string;
  type_ : pytype;
  has_alias : bool;
  alias : string;
  class_validators : obj;
  default : obj;
  required : bool;
  model_config : obj;
  field_info : obj;
  allow_none : bool;
  validate_always : bool;
  sub_fields : option (list loc);
  key_field : option loc;
  validators : obj;
  pre_validators : obj;
  post_validators : obj;
  parse_json : bool;
  shape : nat
}.

(** A model class: its [__name__] and its [__fields__] dict. *)
Record model_class := ModelClass {
  class_name : string;
  class_fields : list (string * loc)
}.

(** The heap of field objects and model classes, with the next fresh
    identity. *)
Record heap := Heap {
  fields_of : gmap loc mfield;
  classes_of : gmap loc model_class;
  next_loc : loc
}.

(** The [cloned_types] dict: original model class to its clone. *)
Abbreviation memo := (gmap loc loc).

Inductive exc :=
| RuntimeError
| PydanticSchemaGenerationError
| TypeError
| OtherException (n : nat)
| FastAPIError (type_ : pytype)
| DanglingReference.

(** State (heap and [cloned_types]) and exceptions; [OutOfFuel] marks a
    recursion that did not finish within the given depth. *)
Inductive result (A : Type) :=
| Ok (a : A) (h : heap) (m : memo)
| Err (e : exc) (h : heap) (m : memo)
| OutOfFuel.
Arguments Ok {A} _ _ _.
Arguments Err {A} _ _ _.
Arguments OutOfFuel {A}.

Definition M (A : Type) : Type := heap -> memo -> result A.

Global Instance M_ret : MRet M := fun A a h m => Ok a h m.
Global Instance M_bind : MBind M := fun A B f x h m =>
  match x h m with
  | Ok a h' m' => f a h' m'
  | Err e h' m' => Err e h' m'
  | OutOfFuel => OutOfFuel
  end.

Definition raise {A} (e : exc) : M A := fun h m => Err e h m.
Definition out_of_fuel {A} : M A := fun _ _ => OutOfFuel.

Definition read_field (l : loc) : M mfield := fun h m =>
  match fields_of h !! l with
  | Some f => Ok f h m
  | None => Err DanglingReference h m
  end.

Definition write_field (l : loc) (f : mfield) : M unit := fun h m =>
  Ok tt (Heap (<[l := f]> (fields_of h)) (classes_of h) (next_loc h)) m.

Definition alloc_field (f : mfield) : M loc := fun h m =>
  Ok (next_loc h)
     (Heap (<[next_loc h := f]> (fields_of h)) (classes_of h) (S (next_loc h))) m.

Definition read_class (c : loc) : M model_class := fun h m =>
  match classes_of h !! c with
  | Some k => Ok k h m
  | None => Err DanglingReference h m
  end.

Definition write_class (c : loc) (k : model_class) : M unit := fun h m =>
  Ok tt (Heap (fields_of h) (<[c := k]> (classes_of h)) (next_loc h)) m.

Definition alloc_class (k : model_class) : M loc := fun h m =>
  Ok (next_loc h)
     (Heap (fields_of h) (<[next_loc h := k]> (classes_of h)) (S (next_loc h))) m.

(** [cloned_types.get(c)] and [cloned_types[c] = u] *)
Definition memo_get (c : loc) : M (option loc) := fun h m => Ok (m !! c) h m.
Definition memo_set (c u : loc) : M unit := fun h m => Ok tt h (<[c := u]> m).

(** [d[k] = v] on a [__fields__] dict. *)
Fixpoint fields_set (k : string) (v : loc) (d : list (string * loc)) : list (string * loc) :=
  match d with
  | [] => [(k, v)]
  | (k', v') :: d' => if String.eqb k k' then (k, v) :: d' else (k', v') :: fields_set k v d'
  end.

(** The optional arguments of [create_response_field] ([class_validators],
    [default], [required], [model_config], [field_info], [alias]); the
    clone passes the defaults. *)
Record response_field_args := ResponseFieldArgs {
  arg_class_validators : option obj;
  arg_default : option obj;
  arg_required : option bool;
  arg_model_config : option obj;
  arg_field_info : option obj;
  arg_alias : option string
}.

Definition default_args : response_field_args :=
  ResponseFieldArgs None None None None None None.

(** What the code uses of pydantic (and of [fastapi._compat]): the
    [PYDANTIC_V2] flag; the [ModelField] constructor, which builds the
    field record or raises; [populate_validators], which recomputes
    [validate_always] and the three validator lists of a field. *)
Record pydantic := Pydantic {
  PYDANTIC_V2 : bool;
  ModelField : string -> pytype -> response_field_args -> exc + mfield;
  populate_validators : mfield -> bool * obj * obj * obj
}.

Section Clone.
Variable P : pydantic.

(** [create_response_field]: [ModelField(...)], with [RuntimeError]
    and [PydanticSchemaGenerationError] turned into [FastAPIError]. *)
Definition create_response_field (name : string) (type_ : pytype)
    (args : response_field_args) : M loc :=
  match ModelField P name type_ args with
  | inr f => alloc_field f
  | inl RuntimeError | inl PydanticSchemaGenerationError => raise (FastAPIError type_)
  | inl e => raise e
  end.

(** pydantic v1 [create_model(name, __base__=base)]: a new subclass that
    starts with the base's fields. *)
Definition create_model (model_name : string) (base : model_class) : M loc :=
  alloc_class (ModelClass model_name (class_fields base)).

(** The attributes copied from [field] onto [new_field], before and
    after the sub-fields and key field; [populate_validators] last. *)
Definition copy_attributes (field new_field : mfield)
    (sub : option (list loc)) (key : option loc) : mfield :=
  let nf := MField (name new_field) (type_ new_field)
              (has_alias field) (alias field) (class_validators field)
              (default field) (required field) (model_config field)
              (field_info field) (allow_none field) (validate_always field)
              sub key
              (validators field) (pre_validators field) (post_validators field)
              (parse_json field) (shape field) in
  let '(va, v, pre, post) := populate_validators P nf in
  MField (name nf) (type_ nf) (has_alias nf) (alias nf) (class_validators nf)
    (default nf) (required nf) (model_config nf) (field_info nf) (allow_none nf)
    va (sub_fields nf) (key_field nf) v pre post (parse_json nf) (shape nf).

(** [for f in original_type.__fields__.values():
        use_type.__fields__[f.name] = create_cloned_field(f, ...)] *)
Fixpoint clone_fields (clone : loc -> M loc) (u : loc) (fs : list (string * loc)) : M unit :=
  match fs with
  | [] => mret tt
  | (_, fl) :: rest =>
      cl ← clone fl;
      g ← read_field fl;
      k ← read_class u;
      write_class u (ModelClass (class_name k) (fields_set (name g) cl (class_fields k)));;
      clone_fields clone u rest
  end.

(** [create_cloned_field(field, cloned_types=...)]; [fuel] bounds the
    recursion depth. *)
Fixpoint create_cloned_field (fuel : nat) (field : loc) : M loc :=
  match fuel with
  | O => out_of_fuel
  | S fuel' =>
    if PYDANTIC_V2 P then mret field else
    f ← read_field field;
    let original_type :=
      match type_ f with
      | TDataclass _ (Some pm) => TModel pm
      | t => t
      end in
    use_type ←
      match original_type with
      | TModel c =>
          cached ← memo_get c;
          match cached with
          | Some u => mret (TModel u)
          | None =>
              cls ← read_class c;
              u ← create_model (class_name cls) cls;
              memo_set c u;;
              clone_fields (create_cloned_field fuel') u (class_fields cls);;
              mret (TModel u)
          end
      | t => mret t
      end;
    nl ← create_response_field (name f) use_type default_args;
    nf ← read_field nl;
    sub ←
      match sub_fields f with
      | Some ((_ :: _) as sfs) =>
          subs ← mapM (create_cloned_field fuel') sfs;
          mret (Some subs)
      | _ => mret (sub_fields nf)
      end;
    key ←
      match key_field f with
      | Some kf => k ← create_cloned_field fuel' kf; mret (Some k)
      | None => mret (key_field nf)
      end;
    write_field nl (copy_attributes f nf sub key);;
    mret nl
  end.

(** The public entry point: [cloned_types=None] starts from an empty
    dict. *)
Definition create_cloned_field_top (fuel : nat) (field : loc) (h : heap) : result loc :=
  create_cloned_field fuel field h ∅.

End Clone.

End Fields.

(* ================================================================== *)
(** ** Concrete pydantic behaviours and heaps used as examples *)

Module FieldExamples.
Import Fields.

(** A field record as [ModelField] builds it for [name] and [type_]. *)
Definition plain_field (n : string) (t : pytype) : mfield :=
  MField n t false n 0 0 false 0 0 false false None None 0 0 0 false 0.

(** pydantic v1 behaviour where the type [TOther 7] (standing for
    [typing.Awaitable[int]]) makes [ModelField] raise [TypeError]
    ("Fields of type ... are not supported"), and [TOther 8] (an
    arbitrary class without validators) raises [RuntimeError]. *)
Definition pydantic_v1 : pydantic :=
  Pydantic false
    (fun n t _ =>
       match t with
       | TOther 7 => inl TypeError
       | TOther 8 => inl RuntimeError
       | _ => inr (plain_field n t)
       end)
    (fun f => (validate_always f, validators f, pre_validators f, post_validators f)).

Definition pydantic_v2 : pydantic :=
  Pydantic true (ModelField pydantic_v1) (populate_validators pydantic_v1).

(** A self-referential model [Node] (class 10) with a field [child :
    Optional[Node]] (field 0), and a field [node : Node] (field 1). *)
Definition node_heap : heap :=
  Heap
    (<[0 := MField "child" (TModel 10) false "child" 1 2 false 3 4 true false
                   None None 5 6 7 false 0]>
     (<[1 := MField "node" (TModel 10) false "node" 1 2 true 3 8 false false
                    None None 5 6 7 false 0]> ∅))
    (<[10 := ModelClass "Node" [("child", 0)]]> ∅)
    11.

(** pydantic v1's type analysis on [TOther 1] ([List[int]]): [ModelField]
    builds a field of [type_] [TOther 0] ([int]) with the list shape
    ([SHAPE_LIST], 2); its own sub-field is not modelled.  Every other
    type as [pydantic_v1]. *)
Definition pydantic_v1_list : pydantic :=
  Pydantic false
    (fun n t a =>
       match t with
       | TOther 1 => inr (MField n (TOther 0) false n 0 0 false 0 0 false false
                                 None None 0 0 0 false 2)
       | _ => ModelField pydantic_v1 n t a
       end)
    (populate_validators pydantic_v1).

(** The fields pydantic v1 builds for [matrix: List[List[int]]]: field 0
    of [type_] [List[int]] and list shape, with sub-field 1 [_matrix] of
    [type_] [int] and list shape, with sub-field 2 [__matrix] of [type_]
    [int]. *)
Definition list_heap : heap :=
  Heap
    (<[0 := MField "matrix" (TOther 1) false "matrix" 1 2 true 3 4 false false
                   (Some [1]) None 5 6 7 false 2]>
     (<[1 := MField "_matrix" (TOther 0) false "_matrix" 1 2 true 3 8 false false
                    (Some [2]) None 5 6 7 false 2]>
      (<[2 := MField "__matrix" (TOther 0) false "__matrix" 1 2 true 3 9 false false
                     None None 5 6 7 false 1]> ∅)))
    ∅
    3.

Definition list_rank (x : loc) : nat := 2 - x.

End FieldExamples.

(* ================================================================== *)
(** ** Python [str(int)] *)

Module PyStr.

(** The decimal digits of [n >= 0], most significant first, put in front
    of [acc]; they are produced from the last one, and [fuel] bounds their
    number. *)
Fixpoint dec_digits (fuel : nat) (n : Z) (acc : list ascii) : list ascii :=
  match fuel with
  | O => acc
  | S fuel' =>
      let acc' := ascii_of_nat (48 + Z.to_nat (n mod 10)) :: acc in
      if (n <? 10)%Z then acc' else dec_digits fuel' (n / 10) acc'
  end.

(** [str(n)] for an [int]: a minus sign for a negative number, then the
    decimal digits without leading zeros.  A number [k > 0] has at most
    [log2 k + 1] decimal digits. *)
Definition py_str (n : Z) : string :=
  let digits_of (k : Z) := dec_digits (S (Z.to_nat (Z.log2 k))) k [] in
  string_of_list_ascii
    (if (n <? 0)%Z then "-"%char :: digits_of (- n)%Z else digits_of n).

End PyStr.

(* ================================================================== *)
(** ** [generate_operation_id_for_path] and [generate_unique_id] *)

Module OperationId.

(** [\w] of a [str] pattern (Unicode matching) on the code points
    0..255 a Rocq [ascii] holds: [_] and the characters [c] with
    [c.isalnum()]. *)
Definition is_word (c : ascii) : bool :=
  let n := nat_of_ascii c in
  ((48 <=? n) && (n <=? 57)) || ((65 <=? n) && (n <=? 90)) || (n =? 95)
  || ((97 <=? n) && (n <=? 122)) || (n =? 170) || ((178 <=? n) && (n <=? 179))
  || (n =? 181) || ((185 <=? n) && (n <=? 186)) || ((188 <=? n) && (n <=? 190))
  || ((192 <=? n) && (n <=? 214)) || ((216 <=? n) && (n <=? 246)) || (248 <=? n).

(** [re.sub(r"\W", "_", s)]: every character that is not a word
    character becomes [_]. *)
Fixpoint sub_nonword (s : string) : string :=
  match s with
  | EmptyString => EmptyString
  | String c s' => String (if is_word c then c else "_"%char) (sub_nonword s')
  end.

(** [str.lower] on the code points 0..255: [A]-[Z], [À]-[Ö] and [Ø]-[Þ]
    move 32 code points up, every other character stays. *)
Definition lower_char (c : ascii) : ascii :=
  let n := nat_of_ascii c in
  if ((65 <=? n) && (n <=? 90)) || ((192 <=? n) && (n <=? 214))
     || ((216 <=? n) && (n <=? 222))
  then ascii_of_nat (n + 32) else c.

Fixpoint lower (s : string) : string :=
  match s with
  | EmptyString => EmptyString
  | String c s' => String (lower_char c) (lower s')
  end.

(** [warnings.warn(message, category, stacklevel=...)] *)
Inductive warning_category := DeprecationWarning.

Record warning := Warning {
  message : string;
  category : warning_category;
  stacklevel : nat
}.

(** [generate_operation_id_for_path(name=..., path=..., method=...)]: the warnings
    it emits and the id it returns. *)
Definition generate_operation_id_for_path (name path method : string)
    : list warning * string :=
  let w := Warning
             ("fastapi.utils.generate_operation_id_for_path() was deprecated, "
              ++ "it is not used internally, and will be removed soon")%string
             DeprecationWarning 2 in
  let operation_id := (name ++ path)%string in
  let operation_id := sub_nonword operation_id in
  let operation_id := (operation_id ++ "_" ++ lower method)%string in
  ([w], operation_id).

(** The attributes of an [APIRoute] the id is made of; [methods] is the
    set [route.methods] in its iteration order, as [list(route.methods)]
    sees it. *)
Record route := Route {
  name : string;
  path_format : string;
  methods : list string
}.

(** [generate_unique_id(route)]; [None] is the [AssertionError] raised
    by [assert route.methods] on an empty set. *)
Definition generate_unique_id (route : route) : option string :=
  let operation_id := (name route ++ path_format route)%string in
  let operation_id := sub_nonword operation_id in
  match methods route with
  | [] => None
  | m :: _ => Some (operation_id ++ "_" ++ lower m)%string
  end.

End OperationId.

(* ================================================================== *)
(** * Theorems *)

Module StatusCodeFacts.
Import PyInt StatusCode.

Example py_int_samples :
  py_int " 204 " = Some 204%Z /\ py_int "-1_0" = Some (-10)%Z /\
  py_int "6XX" = None /\ py_int "1__0" = None /\ py_int "" = None.
Proof. vm_compute. repeat split. Qed.

(** C1: the case table of [is_body_allowed_for_status_code]: [None] and
    the six patterned tokens allow a body, 204 and 304 do not, every
    other integer code from 200 to 599 does, every code below 200 does
    not. *)
Theorem is_body_allowed_case_table :
  is_body_allowed_for_status_code SNone = Returns true /\
  (forall s, In s patterned_fields ->
     is_body_allowed_for_status_code (SStr s) = Returns true) /\
  is_body_allowed_for_status_code (SInt 204) = Returns false /\
  is_body_allowed_for_status_code (SInt 304) = Returns false /\
  (forall n : Z, (200 <= n <= 599)%Z -> n <> 204%Z -> n <> 304%Z ->
     is_body_allowed_for_status_code (SInt n) = Returns true) /\
  (forall n : Z, (n < 200)%Z ->
     is_body_allowed_for_status_code (SInt n) = Returns false).
Proof.
  split; [reflexivity|]. split.
  { intros s Hs. simpl in Hs.
    repeat (destruct Hs as [<- | Hs]; [reflexivity |]). contradiction. }
  split; [reflexivity|]. split; [reflexivity|]. split.
  - intros n Hn H1 H2. cbn [is_body_allowed_for_status_code in_patterned to_int].
    f_equal. cbn [existsb].
    rewrite (proj2 (Z.ltb_ge n 200)) by lia.
    rewrite (proj2 (Z.eqb_neq n 204)) by exact H1.
    rewrite (proj2 (Z.eqb_neq n 304)) by exact H2. reflexivity.
  - intros n Hn. cbn [is_body_allowed_for_status_code in_patterned to_int].
    rewrite (proj2 (Z.ltb_lt n 200)) by lia. reflexivity.
Qed.

Lemma is_body_allowed_case_table_witness :
  is_body_allowed_for_status_code (SStr "4XX") = Returns true /\
  is_body_allowed_for_status_code (SInt 201) = Returns true /\
  is_body_allowed_for_status_code (SInt 101) = Returns false.
Proof.
  pose proof is_body_allowed_case_table as (_ & Htok & _ & _ & Hmid & Hlow).
  split; [apply Htok; simpl; tauto|].
  split; [apply Hmid; lia | apply Hlow; lia].
Defined.

(** C8 (as stated): every code of 300..399 would be "no body"; 301 is
    a counterexample, the code allows a body for it. *)
Lemma redirect_range_counterexample :
  ~ (forall n : Z, (300 <= n <= 399)%Z ->
       is_body_allowed_for_status_code (SInt n) = Returns false).
Proof.
  intros H. specialize (H 301%Z ltac:(lia)). vm_compute in H. discriminate.
Qed.

(** C8 (amended): every integer code below 200 (the informational
    codes 100..199 among them), 204 and 304 are "no body"; the other
    redirect codes 300..399 allow a body. *)
Theorem no_body_codes :
  (forall n : Z, (n < 200)%Z ->
     is_body_allowed_for_status_code (SInt n) = Returns false) /\
  is_body_allowed_for_status_code (SInt 204) = Returns false /\
  is_body_allowed_for_status_code (SInt 304) = Returns false /\
  (forall n : Z, (300 <= n <= 399)%Z -> n <> 304%Z ->
     is_body_allowed_for_status_code (SInt n) = Returns true).
Proof.
  split; [|split; [reflexivity | split; [reflexivity|]]].
  - intros n Hn. cbn [is_body_allowed_for_status_code in_patterned to_int].
    rewrite (proj2 (Z.ltb_lt n 200)) by lia. reflexivity.
  - intros n Hn H304. cbn [is_body_allowed_for_status_code in_patterned to_int].
    cbn [existsb].
    rewrite (proj2 (Z.ltb_ge n 200)) by lia.
    rewrite (proj2 (Z.eqb_neq n 204)) by lia.
    rewrite (proj2 (Z.eqb_neq n 304)) by exact H304. reflexivity.
Qed.

Lemma no_body_codes_witness :
  is_body_allowed_for_status_code (SInt 150) = Returns false /\
  is_body_allowed_for_status_code (SInt 42) = Returns false /\
  is_body_allowed_for_status_code (SInt 302) = Returns true.
Proof.
  pose proof no_body_codes as (Hinfo & _ & _ & Hredir).
  split; [apply Hinfo; lia|]. split; [apply Hinfo; lia | apply Hredir; lia].
Defined.



End StatusCodeFacts.

Module PathParamsFacts.
Import PathParams.

Definition no_newline (s : list ascii) : Prop := ~ In "010"%char s.

Lemma closed_nil : closed [].
Proof. intros a b H. destruct a; discriminate. Qed.

Lemma closed_cons_other c l : c <> "{"%char -> (closed (c :: l) <-> closed l).
Proof.
  intros Hc. split.
  - intros H a b ->. apply (H (c :: a)). reflexivity.
  - intros H [|a0 a] b Heq; simpl in Heq; injection Heq as -> Heq.
    + contradiction.
    + eapply H; eauto.
Qed.

Lemma closed_cons_open l : closed ("{"%char :: l) <-> In "}"%char l /\ closed l.
Proof.
  split.
  - intros H. split; [apply (H []); reflexivity|].
    intros a b ->. apply (H ("{"%char :: a)). reflexivity.
  - intros [Hin H] [|a0 a] b Heq; simpl in Heq; inversion Heq; subst.
    + exact Hin.
    + eapply H; eauto.
Qed.

Lemma closed_app_r a b : closed (a ++ b) -> closed b.
Proof. intros H a' b' ->. apply (H (a ++ a')). now rewrite <- app_assoc. Qed.

Lemma closed_close x p : closed p -> closed (x ++ "}"%char :: p).
Proof.
  intros Hp. induction x as [|c x IH]; simpl.
  - apply closed_cons_other; [discriminate | exact Hp].
  - destruct (ascii_dec c "{") as [->|Hc].
    + apply closed_cons_open. split; [apply in_or_app; right; now left | exact IH].
    + now apply closed_cons_other.
Qed.

Lemma lazy_close_some s x r :
  no_newline s -> lazy_close s = Some (x, r) ->
  s = x ++ "}"%char :: r /\ ~ In "}"%char x.
Proof.
  revert x r. induction s as [|c t IH]; intros x r Hn H; [discriminate|].
  simpl in H. destruct (Ascii.eqb_spec c "}").
  - injection H as <- <-. subst. split; [reflexivity | intros []].
  - destruct (Ascii.eqb_spec c "010"); [discriminate|].
    destruct (lazy_close t) as [[x' r']|] eqn:E; [|discriminate].
    simpl in H. injection H as <- <-.
    destruct (IH x' r') as [-> Hx]; [intros Hin; apply Hn; now right | reflexivity |].
    split; [reflexivity|]. intros [Hc|Hc]; [congruence | contradiction].
Qed.

Lemma lazy_close_none s :
  no_newline s -> lazy_close s = None -> ~ In "}"%char s.
Proof.
  induction s as [|c t IH]; intros Hn H; [intros []|].
  simpl in H. destruct (Ascii.eqb_spec c "}"); [discriminate|].
  destruct (Ascii.eqb_spec c "010"); [subst; exfalso; apply Hn; now left|].
  destruct (lazy_close t) eqn:E; [discriminate|].
  intros [Hc|Hc]; [congruence|].
  apply IH in Hc; auto. intros Hin; apply Hn; now right.
Qed.

Lemma first_close_unique x r l1 l2 :
  ~ In "}"%char x -> In "}"%char l1 -> l1 ++ l2 = x ++ "}"%char :: r ->
  exists p, l1 = x ++ "}"%char :: p /\ r = p ++ l2.
Proof.
  revert l1. induction x as [|c x IH]; intros l1 Hx Hin Heq.
  - destruct l1 as [|c1 l1]; [destruct Hin|].
    simpl in Heq. injection Heq as -> <-. now exists l1.
  - destruct l1 as [|c1 l1]; [destruct Hin|].
    simpl in Heq. injection Heq as -> Heq.
    destruct Hin as [Hc|Hin]; [subst; exfalso; apply Hx; now left|].
    destruct (IH l1) as (p & -> & ->); auto.
    + intros H; apply Hx; now right.
    + now exists p.
Qed.

Lemma first_close_eq x y r post :
  ~ In "}"%char x -> ~ In "}"%char y ->
  y ++ "}"%char :: post = x ++ "}"%char :: r -> y = x /\ post = r.
Proof.
  revert y. induction x as [|c x IH]; intros [|d y] Hx Hy Heq; simpl in Heq.
  - injection Heq as ->. auto.
  - injection Heq as -> _. exfalso. apply Hy. now left.
  - injection Heq as <- _. exfalso. apply Hx. now left.
  - injection Heq as -> Heq. destruct (IH y) as [-> ->]; auto.
    + intros H; apply Hx; now right.
    + intros H; apply Hy; now right.
Qed.

Lemma no_newline_app_r a b : no_newline (a ++ b) -> no_newline b.
Proof. intros H Hin. apply H. apply in_or_app. now right. Qed.

Lemma findall_fuel_spec (n : nat) :
  forall (s : list ascii) (fuel : nat) (y : list ascii),
  length s <= n -> length s <= fuel -> no_newline s ->
  (In (string_of_list_ascii y) (findall_fuel fuel s) <->
   exists pre post, s = pre ++ "{"%char :: y ++ "}"%char :: post /\
                    ~ In "}"%char y /\ closed pre).
Proof.
  induction n as [|n IHn]; intros s fuel y Hn Hf Hnl.
  { destruct s; [|simpl in Hn; lia].
    destruct fuel; simpl; split; [intros []|intros (pre & ? & Heq & _); destruct pre; discriminate
                                  |intros []|intros (pre & ? & Heq & _); destruct pre; discriminate]. }
  destruct s as [|c t].
  { destruct fuel; simpl; split; [intros []|intros (pre & ? & Heq & _); destruct pre; discriminate
                                |intros []|intros (pre & ? & Heq & _); destruct pre; discriminate]. }
  destruct fuel as [|fuel]; [simpl in Hf; lia|].
  simpl in Hn, Hf. cbn [findall_fuel].
  assert (Hnt : no_newline t) by (intros H; apply Hnl; now right).
  destruct (ascii_dec c "{") as [->|Hc].
  - cbn [match_at]. destruct (lazy_close t) as [[x rest]|] eqn:E.
    + destruct (lazy_close_some t x rest Hnt E) as [Ht Hx]. subst t.
      assert (Hlen : length rest <= n) by (rewrite length_app in Hn; simpl in Hn; lia).
      assert (Hnr : no_newline rest)
        by (apply (no_newline_app_r (x ++ ["}"%char])); now rewrite <- app_assoc).
      simpl. rewrite (IHn rest fuel y Hlen ltac:(rewrite length_app in Hf; simpl in Hf; lia) Hnr).
      split.
      * intros [Heq | (pre & post & -> & Hy & Hpre)].
        -- apply (f_equal list_ascii_of_string) in Heq.
           rewrite !list_ascii_of_string_of_list_ascii in Heq. subst y.
           exists [], rest. split; [reflexivity|]. split; [exact Hx | apply closed_nil].
        -- exists ("{"%char :: x ++ "}"%char :: pre), post.
           split; [simpl; now rewrite <- app_assoc|]. split; [exact Hy|].
           apply closed_cons_open. split.
           ++ apply in_or_app. right. now left.
           ++ now apply closed_close.
      * intros (pre & post & Heq & Hy & Hpre).
        destruct pre as [|c0 pre].
        -- left. simpl in Heq. injection Heq as Heq.
           destruct (first_close_eq x y rest post Hx Hy (eq_sym Heq)) as [-> _].
           reflexivity.
        -- right. simpl in Heq. injection Heq as <- Heq.
           apply closed_cons_open in Hpre as [Hin Hpre].
           destruct (first_close_unique x rest pre _ Hx Hin (eq_sym Heq)) as (p & -> & ->).
           exists p, post. split; [reflexivity|]. split; [exact Hy|].
           now apply (closed_app_r (x ++ ["}"%char])); rewrite <- app_assoc.
    + pose proof (lazy_close_none t Hnt E) as Hnone.
      rewrite (IHn t fuel y ltac:(lia) ltac:(lia) Hnt).
      split.
      * intros (pre & post & -> & Hy & Hpre). exfalso. apply Hnone.
        apply in_or_app. right. simpl. right. apply in_or_app. right. now left.
      * intros (pre & post & Heq & Hy & Hpre). exfalso. apply Hnone.
        destruct pre as [|c0 pre]; simpl in Heq.
        -- injection Heq as ->. apply in_or_app. right. now left.
        -- injection Heq as <- ->.
           apply closed_cons_open in Hpre as [Hin _]. apply in_or_app. now left.
  - assert (Hm : match_at (c :: t) = None)
      by (destruct c as [[] [] [] [] [] [] [] []]; try reflexivity; congruence).
    rewrite Hm. rewrite (IHn t fuel y ltac:(lia) ltac:(lia) Hnt).
    split.
    + intros (pre & post & -> & Hy & Hpre). exists (c :: pre), post.
      split; [reflexivity|]. split; [exact Hy|]. now apply closed_cons_other.
    + intros (pre & post & Heq & Hy & Hpre).
      destruct pre as [|c0 pre]; simpl in Heq; injection Heq as Hc0 Heq; [congruence|].
      subst c0.
      exists pre, post. split; [exact Heq|]. split; [exact Hy|].
      now apply (closed_cons_other c).
Qed.

(** C9: on every path template (a URL path, so without line breaks) the
    result is the set of the names [x] that appear as [{x}], where [x]
    holds no [}] and the [{] is not inside an earlier name; duplicates
    collapse as the result is a set.  On "/items/{id}/sub/{name}" it is
    {"id", "name"}. *)
Theorem get_path_param_names_spec :
  (forall (path x : string), no_newline (list_ascii_of_string path) ->
     (x ∈ get_path_param_names path <->
      exists pre post,
        list_ascii_of_string path =
          pre ++ "{"%char :: list_ascii_of_string x ++ "}"%char :: post /\
        ~ In "}"%char (list_ascii_of_string x) /\ closed pre)) /\
  get_path_param_names "/items/{id}/sub/{name}" = {[ "id"; "name" ]}.
Proof.
  split.
  - intros path x Hnl. unfold get_path_param_names, findall_braces.
    rewrite elem_of_list_to_set, list_elem_of_In.
    rewrite <- (string_of_list_ascii_of_string x) at 1.
    apply (findall_fuel_spec (length (list_ascii_of_string path))); auto.
  - vm_compute. reflexivity.
Qed.

Lemma get_path_param_names_spec_witness :
  "id" ∈ get_path_param_names "/a/{id}/{id}".
Proof.
  apply (proj1 get_path_param_names_spec); [vm_compute; intuition discriminate|].
  exists (list_ascii_of_string "/a/"), (list_ascii_of_string "/{id}").
  split; [reflexivity|]. split; [vm_compute; intuition discriminate|].
  intros a b Hab. exfalso.
  do 3 (destruct a as [|? a]; simpl in Hab; [discriminate|injection Hab as _ Hab]).
  destruct a; discriminate.
Defined.

End PathParamsFacts.

Module DefaultValueFacts.
Import DefaultValue.

Lemma first_not_placeholder_some {A} (items : list (candidate A)) x :
  first_not_placeholder items = Some x ->
  exists pre post, items = pre ++ x :: post /\
    Forall (fun c => is_placeholder c = true) pre /\ is_placeholder x = false.
Proof.
  induction items as [|c items IH]; simpl; [discriminate|].
  destruct (is_placeholder c) eqn:Hc; simpl.
  - intros H. destruct (IH H) as (pre & post & -> & Hpre & Hx).
    exists (c :: pre), post. split; [reflexivity|]. split; [now constructor | exact Hx].
  - intros [= <-]. exists [], items. split; [reflexivity|]. split; [constructor | exact Hc].
Qed.

Lemma first_not_placeholder_none {A} (items : list (candidate A)) :
  first_not_placeholder items = None ->
  Forall (fun c => is_placeholder c = true) items.
Proof.
  induction items as [|c items IH]; simpl; [constructor|].
  destruct (is_placeholder c) eqn:Hc; simpl; [|discriminate].
  intros H. constructor; auto.
Qed.

(** C4: when some candidate is not a [DefaultPlaceholder], the result is
    the first such candidate; when all are placeholders, it is the first
    candidate. *)
Theorem get_value_or_default_spec {A} (first_item : candidate A)
    (extra_items : list (candidate A)) :
  (Exists (fun c => is_placeholder c = false) (first_item :: extra_items) ->
   exists pre post,
     first_item :: extra_items = pre ++ get_value_or_default first_item extra_items :: post /\
     Forall (fun c => is_placeholder c = true) pre /\
     is_placeholder (get_value_or_default first_item extra_items) = false) /\
  (Forall (fun c => is_placeholder c = true) (first_item :: extra_items) ->
   get_value_or_default first_item extra_items = first_item).
Proof.
  unfold get_value_or_default.
  destruct (first_not_placeholder (first_item :: extra_items)) as [x|] eqn:E.
  - destruct (first_not_placeholder_some _ _ E) as (pre & post & Heq & Hpre & Hx).
    split.
    + intros _. exists pre, post. auto.
    + intros Hall. exfalso. rewrite Heq in Hall.
      apply Forall_app in Hall as [_ Hall]. inversion Hall; congruence.
  - pose proof (first_not_placeholder_none _ E) as Hall. split; [|reflexivity].
    intros Hex. exfalso. rewrite Exists_exists in Hex. destruct Hex as (c & Hin & Hc).
    rewrite Forall_forall in Hall. specialize (Hall c Hin). congruence.
Qed.

Lemma get_value_or_default_spec_witness :
  get_value_or_default (DefaultPlaceholder 1) [DefaultPlaceholder 2; DefaultPlaceholder 3]
    = DefaultPlaceholder 1 /\
  get_value_or_default (DefaultPlaceholder 1) [Value 2; DefaultPlaceholder 3] = Value 2.
Proof.
  split.
  - apply (proj2 (get_value_or_default_spec _ _)). repeat constructor.
  - destruct (proj1 (get_value_or_default_spec (DefaultPlaceholder 1)
                       [Value 2; DefaultPlaceholder 3]))
      as (pre & post & Heq & Hpre & Hx).
    + apply Exists_cons_tl, Exists_cons_hd. reflexivity.
    + reflexivity.
Defined.

End DefaultValueFacts.

Module DeepDictFacts.
Import DeepDict.

Section Facts.
Context {K A : Type} `{EqDecision K}.
Local Abbreviation dict := (@dict K A).
Local Abbreviation pyval := (@pyval K A).

Lemma dict_get_set_eq (k : K) (v : pyval) (d : dict) :
  dict_get k (dict_set k v d) = Some v.
Proof.
  induction d as [|[k' v'] d IH]; simpl.
  - now rewrite decide_True.
  - destruct (decide (k = k')); simpl.
    + now rewrite decide_True.
    + rewrite decide_False by done. exact IH.
Qed.

Lemma dict_get_set_ne (k k' : K) (v : pyval) (d : dict) :
  k <> k' -> dict_get k (dict_set k' v d) = dict_get k d.
Proof.
  intros Hne. induction d as [|[k0 v0] d IH]; simpl.
  - now rewrite decide_False.
  - destruct (decide (k' = k0)) as [<-|]; simpl.
    + now rewrite !decide_False.
    + destruct (decide (k = k0)); [reflexivity | exact IH].
Qed.

(** One item of the loop. *)
Definition merge_item (main_dict : dict) (key : K) (value : pyval) : dict :=
  match dict_get key main_dict, value with
  | Some (PDict m), PDict u => dict_set key (PDict (deep_dict_update m u)) main_dict
  | Some (PList m), PList u => dict_set key (PList (m ++ u)) main_dict
  | _, _ => dict_set key value main_dict
  end.

Lemma deep_dict_update_nil (main_dict : dict) :
  deep_dict_update main_dict [] = main_dict.
Proof. reflexivity. Qed.

Lemma deep_dict_update_cons (main_dict : dict) key value (rest : dict) :
  deep_dict_update main_dict ((key, value) :: rest) =
  deep_dict_update (merge_item main_dict key value) rest.
Proof.
  unfold deep_dict_update at 1. cbn [deep_dict_update_val]. unfold merge_item.
  destruct (dict_get key main_dict) as [[a|l|d]|], value; reflexivity.
Qed.

Lemma dict_get_merge_item (main_dict : dict) key value :
  dict_get key (merge_item main_dict key value) =
  Some (match dict_get key main_dict, value with
        | Some (PDict m), PDict u => PDict (deep_dict_update m u)
        | Some (PList m), PList u => PList (m ++ u)
        | _, _ => value
        end).
Proof.
  unfold merge_item.
  destruct (dict_get key main_dict) as [[a|l|d]|], value; apply dict_get_set_eq.
Qed.

Lemma dict_get_merge_item_ne (main_dict : dict) k key value :
  k <> key -> dict_get k (merge_item main_dict key value) = dict_get k main_dict.
Proof.
  intros Hne. unfold merge_item.
  destruct (dict_get key main_dict) as [[a|l|d]|], value; now apply dict_get_set_ne.
Qed.

Lemma deep_dict_update_notin (main_dict update_dict : dict) (k : K) :
  k ∉ map fst update_dict ->
  dict_get k (deep_dict_update main_dict update_dict) = dict_get k main_dict.
Proof.
  revert main_dict. induction update_dict as [|[key value] rest IH]; intros main_dict Hk.
  - reflexivity.
  - rewrite deep_dict_update_cons. simpl in Hk. apply not_elem_of_cons in Hk as [Hne Hk].
    rewrite IH by exact Hk. now apply dict_get_merge_item_ne.
Qed.

Lemma dict_get_in (k : K) (d : dict) v : dict_get k d = Some v -> k ∈ map fst d.
Proof.
  induction d as [|[k' v'] d IH]; simpl; [discriminate|].
  destruct (decide (k = k')) as [->|]; intros H; [left | right; auto].
Qed.

(** C3: after the call, a key present on both sides with two dicts holds
    their recursive merge, with two lists the concatenation main ++
    update, otherwise update's value; a key absent from update keeps
    main's value.  ([update_dict] has distinct keys, as a Python dict.) *)
Theorem deep_dict_update_spec (main_dict update_dict : dict) (k : K) :
  NoDup (map fst update_dict) ->
  dict_get k (deep_dict_update main_dict update_dict) =
  match dict_get k main_dict, dict_get k update_dict with
  | Some (PDict m), Some (PDict u) => Some (PDict (deep_dict_update m u))
  | Some (PList m), Some (PList u) => Some (PList (m ++ u))
  | _, Some v => Some v
  | mv, None => mv
  end.
Proof.
  revert main_dict. induction update_dict as [|[key value] rest IH]; intros main_dict Hnd.
  - rewrite deep_dict_update_nil. cbn [dict_get].
    destruct (dict_get k main_dict) as [[a|l|d]|]; reflexivity.
  - rewrite deep_dict_update_cons. simpl in Hnd. apply NoDup_cons in Hnd as [Hkey Hnd].
    cbn [dict_get]. destruct (decide (k = key)) as [->|Hne].
    + rewrite deep_dict_update_notin by exact Hkey. rewrite dict_get_merge_item.
      destruct (dict_get key main_dict) as [[a|l|d]|], value; reflexivity.
    + rewrite IH by exact Hnd. rewrite dict_get_merge_item_ne by exact Hne. reflexivity.
Qed.

(** C7 (amended): [deep_dict_update] writes its first argument: when
    [update_dict] has a key that [main_dict] lacks, or whose value (not a
    dict/dict or list/list pair) differs from [main_dict]'s, the contents
    of [main_dict] after the call differ from those before. *)
Theorem deep_dict_update_mutates_main (main_dict update_dict : dict) (k : K) (v : pyval) :
  NoDup (map fst update_dict) ->
  dict_get k update_dict = Some v ->
  match dict_get k main_dict, v with
  | Some (PDict _), PDict _ | Some (PList _), PList _ => False
  | mv, _ => mv <> Some v
  end ->
  deep_dict_update main_dict update_dict <> main_dict.
Proof.
  intros Hnd Hk Hdiff Heq.
  pose proof (deep_dict_update_spec main_dict update_dict k Hnd) as Hspec.
  rewrite Heq, Hk in Hspec.
  destruct (dict_get k main_dict) as [[a|l|d]|], v; try contradiction; congruence.
Qed.

End Facts.

Definition sdict := @dict string Z.

Lemma deep_dict_update_spec_witness :
  dict_get "b" (deep_dict_update
    [("a", PAtom 1%Z); ("b", PList [PAtom 1%Z])]
    [("b", PList [PAtom 2%Z]); ("c", PDict [])] : sdict) =
  Some (PList [PAtom 1%Z; PAtom 2%Z]).
Proof.
  rewrite (deep_dict_update_spec _ _ "b"); [reflexivity|].
  repeat constructor; simpl; set_solver.
Defined.

Lemma deep_dict_update_mutates_main_witness :
  deep_dict_update [("a", PAtom 1%Z)] [("a", PAtom 2%Z)] <> ([("a", PAtom 1%Z)] : sdict).
Proof.
  apply (deep_dict_update_mutates_main _ _ "a" (PAtom 2%Z)).
  - repeat constructor. set_solver.
  - reflexivity.
  - simpl. congruence.
Defined.

(** C7 (as stated): "every operation leaves its arguments unchanged"
    fails for [deep_dict_update]: main {"a": 1} updated with {"a": 2}
    holds {"a": 2} afterwards. *)
Lemma deep_dict_update_not_pure :
  ~ (forall main_dict update_dict : sdict,
       deep_dict_update main_dict update_dict = main_dict).
Proof.
  intros H. specialize (H [("a", PAtom 1%Z)] [("a", PAtom 2%Z)]).
  vm_compute in H. discriminate.
Qed.

End DeepDictFacts.

Module FieldsFacts.
Import Fields FieldExamples.

Definition raises_fastapi_error {A} (r : result A) : Prop :=
  match r with
  | Err (FastAPIError _) _ _ => True
  | _ => False
  end.

(** C6 (as stated): [FastAPIError] exactly when [ModelField] fails.  A
    [TypeError] from [ModelField] is not turned into [FastAPIError]. *)
Lemma create_response_field_counterexample :
  ~ (forall (P : pydantic) (nm : string) (t : pytype) (args : response_field_args)
            (h : heap) (m : memo),
       raises_fastapi_error (create_response_field P nm t args h m) <->
       exists e, ModelField P nm t args = inl e).
Proof.
  intros H.
  destruct (H pydantic_v1 "x" (TOther 7) default_args node_heap ∅) as [_ H2].
  exact (H2 (ex_intro _ TypeError eq_refl)).
Qed.

(** C6 (amended): [FastAPIError] is raised exactly when [ModelField]
    raises [RuntimeError] or [PydanticSchemaGenerationError]; any other
    exception of [ModelField] propagates as it is; when [ModelField]
    succeeds, the record it built is returned, stored as a new object. *)
Theorem create_response_field_spec (P : pydantic) (nm : string) (t : pytype)
    (args : response_field_args) (h : heap) (m : memo) :
  (ModelField P nm t args = inl RuntimeError \/
   ModelField P nm t args = inl PydanticSchemaGenerationError ->
   create_response_field P nm t args h m = Err (FastAPIError t) h m) /\
  (forall e, ModelField P nm t args = inl e -> e <> RuntimeError ->
     e <> PydanticSchemaGenerationError ->
     create_response_field P nm t args h m = Err e h m) /\
  (forall f, ModelField P nm t args = inr f ->
     create_response_field P nm t args h m =
     Ok (next_loc h)
        (Heap (<[next_loc h := f]> (fields_of h)) (classes_of h) (S (next_loc h))) m).
Proof.
  unfold create_response_field.
  destruct (ModelField P nm t args) as [e|f] eqn:E.
  - split; [|split].
    + intros [[= ->]|[= ->]]; reflexivity.
    + intros e' [= <-] H1 H2. destruct e; try reflexivity; contradiction.
    + discriminate.
  - split; [|split].
    + intros [H|H]; discriminate.
    + discriminate.
    + intros f' [= <-]. reflexivity.
Qed.

Lemma create_response_field_spec_witness :
  create_response_field pydantic_v1 "x" (TOther 7) default_args node_heap ∅
    = Err TypeError node_heap ∅ /\
  create_response_field pydantic_v1 "x" (TOther 8) default_args node_heap ∅
    = Err (FastAPIError (TOther 8)) node_heap ∅.
Proof.
  split.
  - apply (proj1 (proj2 (create_response_field_spec pydantic_v1 "x" (TOther 7)
                            default_args node_heap ∅))); [reflexivity | discriminate | discriminate].
  - apply (proj1 (create_response_field_spec pydantic_v1 "x" (TOther 8)
                    default_args node_heap ∅)). left. reflexivity.
Defined.

(** *** A weakest-precondition calculus for [M] *)

(** [wp oof x Q h m]: run from [(h, m)], [x] ends in [Q] when it
    returns, anything when it raises, and [oof] when it runs out of
    fuel ([True] for partial, [False] for total correctness). *)
Definition wp {A} (oof : Prop) (x : M A) (Q : A -> heap -> memo -> Prop)
    (h : heap) (m : memo) : Prop :=
  match x h m with
  | Ok a h' m' => Q a h' m'
  | Err _ _ _ => True
  | OutOfFuel => oof
  end.

Lemma wp_bind {A B} oof (x : M A) (f : A -> M B) Q h m :
  wp oof x (fun a h' m' => wp oof (f a) Q h' m') h m -> wp oof (x ≫= f) Q h m.
Proof. unfold wp, mbind, M_bind. destruct (x h m); auto. Qed.

Lemma wp_ret {A} oof (a : A) (Q : A -> heap -> memo -> Prop) h m :
  Q a h m -> wp oof (mret a) Q h m.
Proof. unfold wp, mret, M_ret. auto. Qed.

Lemma wp_mono {A} oof (x : M A) (Q Q' : A -> heap -> memo -> Prop) h m :
  wp oof x Q h m -> (forall a h' m', Q a h' m' -> Q' a h' m') -> wp oof x Q' h m.
Proof. unfold wp. destruct (x h m); auto. Qed.

Lemma wp_and {A} (x : M A) (Q : A -> heap -> memo -> Prop) h m :
  wp False x (fun _ _ _ => True) h m -> wp True x Q h m -> wp False x Q h m.
Proof. unfold wp. destruct (x h m); auto. Qed.

Lemma wp_raise {A} oof e (Q : A -> heap -> memo -> Prop) h m : wp oof (raise e) Q h m.
Proof. exact I. Qed.

Lemma wp_read_field oof l (Q : mfield -> heap -> memo -> Prop) h m :
  (forall f, fields_of h !! l = Some f -> Q f h m) -> wp oof (read_field l) Q h m.
Proof. unfold wp, read_field. destruct (fields_of h !! l); auto. Qed.

Lemma wp_read_class oof c (Q : model_class -> heap -> memo -> Prop) h m :
  (forall k, classes_of h !! c = Some k -> Q k h m) -> wp oof (read_class c) Q h m.
Proof. unfold wp, read_class. destruct (classes_of h !! c); auto. Qed.

Lemma wp_write_field oof l f (Q : unit -> heap -> memo -> Prop) h m :
  Q tt (Heap (<[l := f]> (fields_of h)) (classes_of h) (next_loc h)) m ->
  wp oof (write_field l f) Q h m.
Proof. auto. Qed.

Lemma wp_write_class oof c k (Q : unit -> heap -> memo -> Prop) h m :
  Q tt (Heap (fields_of h) (<[c := k]> (classes_of h)) (next_loc h)) m ->
  wp oof (write_class c k) Q h m.
Proof. auto. Qed.

Lemma wp_memo_get oof c (Q : option loc -> heap -> memo -> Prop) h m :
  Q (m !! c) h m -> wp oof (memo_get c) Q h m.
Proof. auto. Qed.

Lemma wp_memo_set oof c u (Q : unit -> heap -> memo -> Prop) h m :
  Q tt h (<[c := u]> m) -> wp oof (memo_set c u) Q h m.
Proof. auto. Qed.

Lemma wp_create_model oof nm base (Q : loc -> heap -> memo -> Prop) h m :
  Q (next_loc h)
    (Heap (fields_of h) (<[next_loc h := ModelClass nm (class_fields base)]> (classes_of h))
          (S (next_loc h))) m ->
  wp oof (create_model nm base) Q h m.
Proof. auto. Qed.

Lemma wp_create_response_field oof P nm t args (Q : loc -> heap -> memo -> Prop) h m :
  (forall f, ModelField P nm t args = inr f ->
     Q (next_loc h) (Heap (<[next_loc h := f]> (fields_of h)) (classes_of h)
                         (S (next_loc h))) m) ->
  wp oof (create_response_field P nm t args) Q h m.
Proof.
  intros H. unfold create_response_field. destruct (ModelField P nm t args) as [e|f] eqn:E.
  - destruct e; apply wp_raise.
  - apply H. reflexivity.
Qed.

Lemma wp_mapM {A B} oof (g : A -> M B) (xs : list A)
    (I : heap -> memo -> Prop) (R : A -> B -> heap -> memo -> heap -> memo -> Prop)
    (Rs : list A -> list B -> heap -> memo -> heap -> memo -> Prop) h m :
  (forall h m, Rs [] [] h m h m) ->
  (forall x y ys xs h1 m1 h2 m2 h3 m3, R x y h1 m1 h2 m2 -> Rs xs ys h2 m2 h3 m3 ->
     Rs (x :: xs) (y :: ys) h1 m1 h3 m3) ->
  (forall x h m, In x xs -> I h m -> wp oof (g x) (fun y h' m' => I h' m' /\ R x y h m h' m') h m) ->
  I h m ->
  wp oof (mapM g xs) (fun ys h' m' => I h' m' /\ Rs xs ys h m h' m') h m.
Proof.
  intros Hnil Hcons Hg. revert h m.
  induction xs as [|x xs IH]; intros h m HI; simpl.
  - apply wp_ret. auto.
  - apply wp_bind. eapply wp_mono; [apply Hg; [now left | exact HI]|].
    intros y h1 m1 [HI1 HR]. apply wp_bind.
    eapply wp_mono; [apply IH; [intros; apply Hg; [now right|]; auto | exact HI1]|].
    intros ys h2 m2 [HI2 HRs]. apply wp_ret. split; [exact HI2|]. eauto.
Qed.

(** *** The frame of [create_cloned_field] *)

(** Every object of the heap lies below [next_loc]. *)
Definition bounded (h : heap) : Prop :=
  (forall x f, fields_of h !! x = Some f -> x < next_loc h) /\
  (forall x k, classes_of h !! x = Some k -> x < next_loc h).

Definition boundedb (h : heap) : bool :=
  bool_decide (map_Forall (fun x _ => x < next_loc h) (fields_of h)) &&
  bool_decide (map_Forall (fun x _ => x < next_loc h) (classes_of h)).

Lemma boundedb_bounded h : boundedb h = true -> bounded h.
Proof.
  unfold boundedb. rewrite andb_true_iff, !bool_decide_eq_true.
  intros [H1 H2]. split; intros x v Hx; [apply (H1 x v Hx) | apply (H2 x v Hx)].
Qed.

(** Objects below [next_loc h] are the same in [h'] as in [h]. *)
Definition keeps_below (n : loc) (h h' : heap) : Prop :=
  forall x : loc, x < n ->
    fields_of h' !! x = fields_of h !! x /\ classes_of h' !! x = classes_of h !! x.

(** A step that only allocates and writes fresh objects, and only adds
    to [cloned_types]. *)
Definition step_ok (h : heap) (m : memo) (h' : heap) (m' : memo) : Prop :=
  bounded h' /\ next_loc h <= next_loc h' /\ keeps_below (next_loc h) h h' /\ m ⊆ m'.

Lemma step_ok_refl h m : bounded h -> step_ok h m h m.
Proof. intros Hb. split; [exact Hb|]. split; [lia|]. split; [intros x _; auto | reflexivity]. Qed.

Lemma step_ok_trans h1 m1 h2 m2 h3 m3 :
  step_ok h1 m1 h2 m2 -> step_ok h2 m2 h3 m3 -> step_ok h1 m1 h3 m3.
Proof.
  intros (Hb2 & Hn12 & Hk12 & Hm12) (Hb3 & Hn23 & Hk23 & Hm23).
  split; [exact Hb3|]. split; [lia|]. split; [|etrans; eauto].
  intros x Hx. destruct (Hk12 x Hx) as [F1 C1]. destruct (Hk23 x ltac:(lia)) as [F2 C2].
  split; congruence.
Qed.

Lemma bounded_alloc_field h f :
  bounded h -> bounded (Heap (<[next_loc h := f]> (fields_of h)) (classes_of h) (S (next_loc h))).
Proof.
  intros [Hf Hc]. split; simpl.
  - intros x g Hx. destruct (decide (x = next_loc h)) as [->|Hne]; [lia|].
    rewrite lookup_insert_ne in Hx by congruence. specialize (Hf x g Hx). lia.
  - intros x k Hx. specialize (Hc x k Hx). lia.
Qed.

Lemma bounded_alloc_class h k :
  bounded h -> bounded (Heap (fields_of h) (<[next_loc h := k]> (classes_of h)) (S (next_loc h))).
Proof.
  intros [Hf Hc]. split; simpl.
  - intros x g Hx. specialize (Hf x g Hx). lia.
  - intros x k' Hx. destruct (decide (x = next_loc h)) as [->|Hne]; [lia|].
    rewrite lookup_insert_ne in Hx by congruence. specialize (Hc x k' Hx). lia.
Qed.

Lemma bounded_write_field h l f :
  bounded h -> l < next_loc h ->
  bounded (Heap (<[l := f]> (fields_of h)) (classes_of h) (next_loc h)).
Proof.
  intros [Hf Hc] Hl. split; simpl; [|exact Hc].
  intros x g Hx. destruct (decide (x = l)) as [->|Hne]; [exact Hl|].
  rewrite lookup_insert_ne in Hx by congruence. exact (Hf x g Hx).
Qed.

Lemma bounded_write_class h c k :
  bounded h -> c < next_loc h ->
  bounded (Heap (fields_of h) (<[c := k]> (classes_of h)) (next_loc h)).
Proof.
  intros [Hf Hc] Hl. split; simpl; [exact Hf|].
  intros x g Hx. destruct (decide (x = c)) as [->|Hne]; [exact Hl|].
  rewrite lookup_insert_ne in Hx by congruence. exact (Hc x g Hx).
Qed.

(** The class-field loop writes class [u] and otherwise only allocates. *)
Definition loop_ok (u : loc) (h : heap) (m : memo) (h' : heap) (m' : memo) : Prop :=
  bounded h' /\ next_loc h <= next_loc h' /\
  (forall x : loc, x < next_loc h ->
     fields_of h' !! x = fields_of h !! x /\
     (x <> u -> classes_of h' !! x = classes_of h !! x)) /\
  m ⊆ m'.

Section Frame.
Variable P : pydantic.
Hypothesis HV1 : PYDANTIC_V2 P = false.

Lemma clone_fields_frame (clone : loc -> M loc) u fs :
  (forall l h m, bounded h -> wp True (clone l) (fun _ h' m' => step_ok h m h' m') h m) ->
  forall h m, bounded h -> u < next_loc h ->
  wp True (clone_fields clone u fs) (fun _ h' m' => loop_ok u h m h' m') h m.
Proof.
  intros Hclone. induction fs as [|[k fl] fs IH]; intros h m Hb Hu; simpl.
  - apply wp_ret. split; [exact Hb|]. split; [lia|]. split; [intros x _; auto | reflexivity].
  - apply wp_bind. eapply wp_mono; [apply Hclone, Hb|].
    intros cl h1 m1 (Hb1 & Hn1 & Hk1 & Hm1).
    apply wp_bind, wp_read_field. intros g Hg.
    apply wp_bind, wp_read_class. intros kc Hkc.
    apply wp_bind, wp_write_class.
    eapply wp_mono; [apply IH; [apply bounded_write_class; [exact Hb1|lia] | simpl; lia]|].
    intros _ h3 m3 (Hb3 & Hn3 & Hk3 & Hm3). simpl in Hn3, Hk3.
    split; [exact Hb3|]. split; [lia|]. split; [|etrans; eauto].
    intros x Hx. destruct (Hk1 x Hx) as [F1 C1]. destruct (Hk3 x ltac:(lia)) as [F3 C3].
    split; [congruence|]. intros Hxu. rewrite (C3 Hxu). simpl.
    rewrite lookup_insert_ne by congruence. exact C1.
Qed.

Lemma step_ok_write_field h m h' m' l f :
  step_ok h m h' m' -> next_loc h <= l < next_loc h' ->
  step_ok h m (Heap (<[l := f]> (fields_of h')) (classes_of h') (next_loc h')) m'.
Proof.
  intros (Hb & Hn & Hk & Hm) Hl. split; [apply bounded_write_field; [exact Hb|lia]|].
  split; [simpl; lia|]. split; [|exact Hm].
  intros x Hx. simpl. rewrite lookup_insert_ne by lia. apply Hk, Hx.
Qed.

(** What one call of [create_cloned_field] guarantees (pydantic v1): it
    only allocates and writes objects it creates; the result is a new
    object holding the original's attributes, with new sub-fields and
    key field when the original has them. *)
Definition clone_post (h : heap) (m : memo) (l : loc) (l' : loc) (h' : heap) (m' : memo) : Prop :=
  step_ok h m h' m' /\ next_loc h <= l' < next_loc h' /\
  exists f nf sub key t,
    fields_of h !! l = Some f /\ ModelField P (name f) t default_args = inr nf /\
    fields_of h' !! l' = Some (copy_attributes P f nf sub key) /\
    (forall y ys, sub_fields f = Some (y :: ys) ->
       exists subs, sub = Some subs /\ length subs = length (y :: ys) /\
                    Forall (fun s => next_loc h <= s) subs) /\
    (forall k, key_field f = Some k -> exists k', key = Some k' /\ next_loc h <= k').

Lemma clone_frame fuel :
  forall l h m, bounded h -> wp True (create_cloned_field P fuel l) (clone_post h m l) h m.
Proof.
  induction fuel as [|fuel IH]; intros l h m Hb; [exact I|].
  assert (IHs : forall l h m, bounded h ->
            wp True (create_cloned_field P fuel l) (fun _ h' m' => step_ok h m h' m') h m).
  { intros l0 h0 m0 Hb0. eapply wp_mono; [apply IH, Hb0|]. intros ? ? ? [? _]; assumption. }
  cbn [create_cloned_field]. rewrite HV1.
  apply wp_bind, wp_read_field. intros f Hf.
  apply wp_bind.
  eapply wp_mono with (Q := fun _ h1 m1 => step_ok h m h1 m1).
  { assert (Hmodel : forall c,
      wp True
        (cached ← memo_get c;
         match cached with
         | Some u => mret (TModel u)
         | None =>
             cls ← read_class c;
             u ← create_model (class_name cls) cls;
             memo_set c u;; clone_fields (create_cloned_field P fuel) u (class_fields cls);;
             mret (TModel u)
         end) (fun _ h1 m1 => step_ok h m h1 m1) h m).
    { intros c. apply wp_bind, wp_memo_get. destruct (m !! c) as [u|] eqn:Hc.
      - apply wp_ret, step_ok_refl, Hb.
      - apply wp_bind, wp_read_class. intros cls Hcls.
        apply wp_bind, wp_create_model. apply wp_bind, wp_memo_set. apply wp_bind.
        eapply wp_mono; [apply clone_fields_frame;
                         [exact IHs | apply bounded_alloc_class, Hb | simpl; lia]|].
        intros _ h2 m2 (Hb2 & Hn2 & Hk2 & Hm2). simpl in Hn2, Hk2. apply wp_ret.
        split; [exact Hb2|]. split; [lia|]. split.
        + intros x Hx. destruct (Hk2 x ltac:(lia)) as [F2 C2].
          rewrite F2, C2 by lia. simpl. rewrite lookup_insert_ne by lia. auto.
        + etrans; [|exact Hm2]. apply insert_subseteq, Hc. }
    destruct (type_ f) as [c|d [pm|]|t]; simpl.
    - apply Hmodel.
    - apply Hmodel.
    - apply wp_ret, step_ok_refl, Hb.
    - apply wp_ret, step_ok_refl, Hb. }
  intros use_type h1 m1 Hs1.
  pose proof Hs1 as (Hb1 & Hn1 & Hk1 & Hm1).
  apply wp_bind, wp_create_response_field. intros nf Hnf.
  set (h2 := Heap (<[next_loc h1 := nf]> (fields_of h1)) (classes_of h1) (S (next_loc h1))).
  assert (Hs12 : step_ok h1 m1 h2 m1).
  { split; [apply bounded_alloc_field, Hb1|]. split; [simpl; lia|]. split; [|reflexivity].
    intros x Hx. simpl. rewrite lookup_insert_ne by lia. auto. }
  apply wp_bind, wp_read_field. intros nf' Hnf'.
  simpl in Hnf'. rewrite lookup_insert_eq in Hnf'. injection Hnf' as <-.
  apply wp_bind.
  eapply wp_mono with (Q := fun sub h3 m3 => step_ok h2 m1 h3 m3 /\
      (forall y ys, sub_fields f = Some (y :: ys) ->
         exists subs, sub = Some subs /\ length subs = length (y :: ys) /\
                      Forall (fun s => next_loc h2 <= s) subs)).
  { destruct (sub_fields f) as [[|y ys]|] eqn:Hsub.
    - apply wp_ret. split; [apply step_ok_refl, Hs12|]. discriminate.
    - apply wp_bind.
      eapply wp_mono; [apply (wp_mapM _ _ _ (fun h' m' => step_ok h2 m1 h' m')
                        (fun _ y _ _ _ _ => next_loc h2 <= y)
                        (fun xs ys _ _ _ _ => length ys = length xs /\
                                              Forall (fun s => next_loc h2 <= s) ys))|].
      + intros. split; [reflexivity | constructor].
      + intros x0 y0 ys0 xs0 ? ? ? ? ? ? H1 [H2 H3]. split; [simpl; lia | now constructor].
      + intros x0 h' m' _ HI. eapply wp_mono; [apply IH, HI|].
        intros y0 h'' m'' [Hs'' [Hy _]]. split; [eapply step_ok_trans; eauto|].
        destruct HI as (_ & HI & _). lia.
      + apply step_ok_refl, Hs12.
      + intros subs h3 m3 [HI3 [Hlen HF]]. apply wp_ret. split; [exact HI3|].
        intros y' ys' [= <- <-]. exists subs. auto.
    - apply wp_ret. split; [apply step_ok_refl, Hs12|]. discriminate. }
  intros sub h3 m3 [Hs23 Hsub].
  apply wp_bind.
  eapply wp_mono with (Q := fun key h4 m4 => step_ok h3 m3 h4 m4 /\
      (forall k, key_field f = Some k -> exists k', key = Some k' /\ next_loc h3 <= k')).
  { destruct (key_field f) as [kf|] eqn:Hkf.
    - apply wp_bind. eapply wp_mono; [apply IH, (proj1 Hs23)|].
      intros k' h4 m4 [Hs34 [Hk' _]]. apply wp_ret. split; [exact Hs34|].
      intros k [= <-]. exists k'. split; [reflexivity | lia].
    - apply wp_ret. split; [apply step_ok_refl, (proj1 Hs23)|]. discriminate. }
  intros key h4 m4 [Hs34 Hkey].
  apply wp_bind, wp_write_field, wp_ret.
  assert (Hs04 : step_ok h m h4 m4)
    by (eapply step_ok_trans; [exact Hs1|]; eapply step_ok_trans; [exact Hs12|];
        eapply step_ok_trans; eauto).
  pose proof Hs23 as (_ & Hn23 & _). pose proof Hs34 as (_ & Hn34 & _). simpl in Hn23.
  split; [apply step_ok_write_field; [exact Hs04 | simpl in *; lia]|].
  split; [simpl; lia|].
  exists f, nf, sub, key, use_type. split; [exact Hf|]. split; [exact Hnf|].
  split; [simpl; apply lookup_insert_eq|]. split.
  - intros y ys Hy. destruct (Hsub y ys Hy) as (subs & -> & Hlen & HF). exists subs.
    split; [reflexivity|]. split; [exact Hlen|].
    eapply Forall_impl; [exact HF|]. simpl. intros s0 Hs0. lia.
  - intros k Hk. destruct (Hkey k Hk) as (k' & -> & Hk'). exists k'. split; [reflexivity|].
    simpl in *. lia.
Qed.

End Frame.

Lemma copy_attributes_spec P f nf sub key :
  let r := copy_attributes P f nf sub key in
  name r = name nf /\ type_ r = type_ nf /\
  has_alias r = has_alias f /\ alias r = alias f /\
  class_validators r = class_validators f /\ default r = default f /\
  required r = required f /\ model_config r = model_config f /\
  field_info r = field_info f /\ allow_none r = allow_none f /\
  sub_fields r = sub /\ key_field r = key /\
  parse_json r = parse_json f /\ shape r = shape f.
Proof.
  unfold copy_attributes. simpl.
  destruct (populate_validators P _) as [[[va v] pre] post]. simpl. tauto.
Qed.

(** C2 (as stated): the clone would always be a record distinct from
    its argument.  With pydantic v2 the function returns its argument. *)
Lemma create_cloned_field_counterexample :
  ~ (forall (P : pydantic) (fuel : nat) (l : loc) (h : heap) (f : mfield)
            (l' : loc) (h' : heap) (m' : memo),
       fields_of h !! l = Some f ->
       create_cloned_field_top P fuel l h = Ok l' h' m' -> l' <> l).
Proof.
  intros H. eapply (H pydantic_v2 1 1 node_heap _ 1 node_heap ∅); reflexivity.
Qed.

(** C2 (amended): with pydantic v2 [create_cloned_field] returns its
    argument itself.  With pydantic v1 it returns a new field record,
    distinct from every object that existed before (the original field
    included), whose sub-fields and key field are new objects as well;
    attributes such as [field_info], [class_validators], [default] and
    [model_config] are shared with the original, not copied; and every
    field and model class that existed before the call, the original
    field and its model type included, is left unchanged. *)
Theorem create_cloned_field_copy :
  (forall (P : pydantic) (fuel : nat) (l : loc) (h : heap),
     PYDANTIC_V2 P = true -> create_cloned_field_top P (S fuel) l h = Ok l h ∅) /\
  (forall (P : pydantic) (fuel : nat) (l : loc) (h : heap) (f : mfield)
          (l' : loc) (h' : heap) (m' : memo),
     PYDANTIC_V2 P = false -> boundedb h = true -> fields_of h !! l = Some f ->
     create_cloned_field_top P fuel l h = Ok l' h' m' ->
     l' <> l /\ fields_of h !! l' = None /\
     (forall x, x < next_loc h ->
        fields_of h' !! x = fields_of h !! x /\ classes_of h' !! x = classes_of h !! x) /\
     exists f', fields_of h' !! l' = Some f' /\
       has_alias f' = has_alias f /\ alias f' = alias f /\
       class_validators f' = class_validators f /\ default f' = default f /\
       required f' = required f /\ model_config f' = model_config f /\
       field_info f' = field_info f /\ allow_none f' = allow_none f /\
       parse_json f' = parse_json f /\ shape f' = shape f /\
       (forall y ys, sub_fields f = Some (y :: ys) ->
          exists subs, sub_fields f' = Some subs /\ length subs = length (y :: ys) /\
                       Forall (fun s => fields_of h !! s = None) subs) /\
       (forall k, key_field f = Some k ->
          exists k', key_field f' = Some k' /\ fields_of h !! k' = None)).
Proof.
  split.
  - intros P fuel l h HV. unfold create_cloned_field_top. simpl. rewrite HV. reflexivity.
  - intros P fuel l h f l' h' m' HV Hbb Hf Hrun.
    pose proof (boundedb_bounded h Hbb) as Hb.
    pose proof (clone_frame P HV fuel l h ∅ Hb) as Hwp.
    unfold wp in Hwp. unfold create_cloned_field_top in Hrun. rewrite Hrun in Hwp.
    destruct Hwp as ((Hb' & Hn & Hk & _) & Hl' & f0 & nf & sub & key & t & Hf0 & Hnf & Hl'f & Hsub & Hkey).
    rewrite Hf in Hf0. injection Hf0 as <-.
    assert (Hfresh : forall x, next_loc h <= x -> fields_of h !! x = None).
    { intros x Hx. destruct (fields_of h !! x) eqn:E; [|reflexivity].
      apply (proj1 Hb) in E. lia. }
    split; [intros ->; apply (proj1 Hb) in Hf; lia|].
    split; [apply Hfresh; lia|].
    split; [exact Hk|].
    exists (copy_attributes P f nf sub key). split; [exact Hl'f|].
    destruct (copy_attributes_spec P f nf sub key)
      as (_ & _ & H1 & H2 & H3 & H4 & H5 & H6 & H7 & H8 & Hs & Hk' & H9 & H10).
    repeat (split; [assumption|]). split.
    + intros y ys Hy. destruct (Hsub y ys Hy) as (subs & -> & Hlen & HF).
      exists subs. split; [exact Hs|]. split; [exact Hlen|].
      eapply Forall_impl; [exact HF|]. intros s0 Hs0. apply Hfresh, Hs0.
    + intros k Hkk. destruct (Hkey k Hkk) as (k' & -> & Hk0). exists k'.
      split; [exact Hk'|]. apply Hfresh, Hk0.
Qed.

Lemma create_cloned_field_copy_witness :
  create_cloned_field_top pydantic_v2 3 1 node_heap = Ok 1 node_heap ∅ /\
  match create_cloned_field_top pydantic_v1 10 1 node_heap with
  | Ok l' _ _ => l' <> 1 /\ fields_of node_heap !! l' = None
  | _ => False
  end.
Proof.
  split; [apply (proj1 create_cloned_field_copy); reflexivity|].
  destruct (create_cloned_field_top pydantic_v1 10 1 node_heap) as [l' h' m'|e h' m'|] eqn:E;
    [|vm_compute in E; discriminate|vm_compute in E; discriminate].
  destruct (proj2 create_cloned_field_copy pydantic_v1 10 1 node_heap _ l' h' m'
              eq_refl eq_refl eq_refl E) as (Hne & Hnone & _).
  split; [exact Hne | exact Hnone].
Defined.

(** *** Structural equality of a clone and its original *)

(** The model class a field type refers to: a model, or a dataclass
    with its [__pydantic_model__]. *)
Definition model_ref (t : pytype) : option loc :=
  match t with
  | TModel c => Some c
  | TDataclass _ (Some c) => Some c
  | TOther _ => None
  | TDataclass _ None => None
  end.

(** The type of a clone: a model type is replaced by its clone, as
    recorded in [cloned_types]; any other type is kept. *)
Definition type_corr (m : memo) (t t' : pytype) : Prop :=
  match model_ref t with
  | Some c => exists u, m !! c = Some u /\ t' = TModel u
  | None => t' = t
  end.

(** Field [n] is a clone of field [o]: same name and attributes, the
    cloned type, and sub-fields and key field that are clones (pairs of
    [S]) of the original ones.  [validate_always] and the validator
    lists are recomputed by [populate_validators]. *)
Definition field_corr (h : heap) (m : memo) (S : list (loc * loc)) (o n : loc) : Prop :=
  exists fo fn, fields_of h !! o = Some fo /\ fields_of h !! n = Some fn /\
    name fn = name fo /\ type_corr m (type_ fo) (type_ fn) /\
    has_alias fn = has_alias fo /\ alias fn = alias fo /\
    class_validators fn = class_validators fo /\ default fn = default fo /\
    required fn = required fo /\ model_config fn = model_config fo /\
    field_info fn = field_info fo /\ allow_none fn = allow_none fo /\
    parse_json fn = parse_json fo /\ shape fn = shape fo /\
    (forall y ys, sub_fields fo = Some (y :: ys) ->
       exists zs, sub_fields fn = Some zs /\ Forall2 (fun a b => In (a, b) S) (y :: ys) zs) /\
    (forall k, key_field fo = Some k -> exists k', key_field fn = Some k' /\ In (k, k') S).

(** One entry of [__fields__] of a cloned class against the original. *)
Definition entry_corr (S : list (loc * loc)) (p q : string * loc) : Prop :=
  fst q = fst p /\ In (snd p, snd q) S.

(** Class [u] is a clone of class [c]: same name, and [__fields__] with
    the same keys in the same order, mapped to clones. *)
Definition class_corr (h : heap) (S : list (loc * loc)) (c u : loc) : Prop :=
  exists kc ku, classes_of h !! c = Some kc /\ classes_of h !! u = Some ku /\
    class_name ku = class_name kc /\
    Forall2 (entry_corr S) (class_fields kc) (class_fields ku).

(** [l'] is structurally equal to [l] in [h]: a relation [S] of
    (original, clone) pairs contains [(l, l')], every pair of [S] is a
    clone in the sense of [field_corr], and every class recorded in
    [cloned_types] is a clone of its original. *)
Definition structurally_equal (h : heap) (m : memo) (l l' : loc) : Prop :=
  exists S, In (l, l') S /\
    (forall o n, In (o, n) S -> field_corr h m S o n) /\
    (forall c u, m !! c = Some u -> class_corr h S c u).

(** The name and [type_] of clone [fn] of [fo] are those of the field
    [ModelField] builds from the name of [fo] and the type of [fo] with
    its model type replaced by its clone (pydantic v1 analyses the type
    it is given: for [List[int]] it builds a field of [type_] [int]). *)
Definition model_field_corr (P : pydantic) (m : memo) (fo fn : mfield) : Prop :=
  exists t' nf, type_corr m (type_ fo) t' /\
    ModelField P (name fo) t' default_args = inr nf /\
    name fn = name nf /\ type_ fn = type_ nf.

(** Field [n] is a clone of field [o] as [ModelField] builds it: name
    and [type_] as in [model_field_corr], the other attributes of [o],
    and sub-fields and key field that are clones (pairs of [S]) of the
    original ones. *)
Definition field_corr_mf (P : pydantic) (h : heap) (m : memo) (S : list (loc * loc))
    (o n : loc) : Prop :=
  exists fo fn, fields_of h !! o = Some fo /\ fields_of h !! n = Some fn /\
    model_field_corr P m fo fn /\
    has_alias fn = has_alias fo /\ alias fn = alias fo /\
    class_validators fn = class_validators fo /\ default fn = default fo /\
    required fn = required fo /\ model_config fn = model_config fo /\
    field_info fn = field_info fo /\ allow_none fn = allow_none fo /\
    parse_json fn = parse_json fo /\ shape fn = shape fo /\
    (forall y ys, sub_fields fo = Some (y :: ys) ->
       exists zs, sub_fields fn = Some zs /\ Forall2 (fun a b => In (a, b) S) (y :: ys) zs) /\
    (forall k, key_field fo = Some k -> exists k', key_field fn = Some k' /\ In (k, k') S).

(** [l'] is structurally equal to [l] up to what [ModelField] computes:
    as [structurally_equal], with [field_corr_mf] for the fields. *)
Definition structurally_equal_mf (P : pydantic) (h : heap) (m : memo) (l l' : loc) : Prop :=
  exists S, In (l, l') S /\
    (forall o n, In (o, n) S -> field_corr_mf P h m S o n) /\
    (forall c u, m !! c = Some u -> class_corr h S c u).

(** The sub-fields of a field, [[]] when it has none. *)
Definition sub_list (f : mfield) : list loc :=
  match sub_fields f with Some l => l | None => [] end.

(** Well-formed pydantic v1 data: every object below [next_loc]; field
    types, sub-fields, key fields and class fields refer to existing
    objects; sub-fields and key fields have a smaller [rank] than their
    field (they form finite trees); the keys of [__fields__] are
    distinct and are the names of their fields. *)
Definition field_okb (h : heap) (rank : loc -> nat) (x : loc) (f : mfield) : bool :=
  match model_ref (type_ f) with
  | Some c => bool_decide (is_Some (classes_of h !! c))
  | None => true
  end &&
  forallb (fun s => bool_decide (is_Some (fields_of h !! s)) && (rank s <? rank x))
    (sub_list f) &&
  match key_field f with
  | Some k => bool_decide (is_Some (fields_of h !! k)) && (rank k <? rank x)
  | None => true
  end.

Definition class_okb (h : heap) (k : model_class) : bool :=
  bool_decide (NoDup (map fst (class_fields k))) &&
  forallb (fun p => match fields_of h !! snd p with
                    | Some g => String.eqb (name g) (fst p)
                    | None => false
                    end) (class_fields k).

Definition well_formedb (h : heap) (rank : loc -> nat) : bool :=
  boundedb h &&
  forallb (fun p => field_okb h rank (fst p) (snd p)) (map_to_list (fields_of h)) &&
  forallb (fun p => class_okb h (snd p)) (map_to_list (classes_of h)).

(** The recursion measure: classes not yet in [cloned_types], then the
    rank of the field. *)
Fixpoint count_unmemo (m : memo) (cs : list loc) : nat :=
  match cs with
  | [] => 0
  | c :: cs' => match m !! c with Some _ => count_unmemo m cs' | None => S (count_unmemo m cs') end
  end.

Definition class_locs (h : heap) : list loc := map fst (map_to_list (classes_of h)).

Definition max_rank (h : heap) (rank : loc -> nat) : nat :=
  list_max (map (fun p => rank (fst p)) (map_to_list (fields_of h))).

Definition clone_measure (h : heap) (rank : loc -> nat) (m : memo) (l : loc) : nat :=
  count_unmemo m (class_locs h) * S (max_rank h rank) + rank l.

(** Enough fuel for a top-level call. *)
Definition clone_bound (h : heap) (rank : loc -> nat) (l : loc) : nat :=
  S (clone_measure h rank ∅ l).

Lemma well_formedb_spec h rank :
  well_formedb h rank = true ->
  bounded h /\
  (forall x f c, fields_of h !! x = Some f -> model_ref (type_ f) = Some c ->
     is_Some (classes_of h !! c)) /\
  (forall x f s, fields_of h !! x = Some f -> In s (sub_list f) ->
     is_Some (fields_of h !! s) /\ rank s < rank x) /\
  (forall x f k, fields_of h !! x = Some f -> key_field f = Some k ->
     is_Some (fields_of h !! k) /\ rank k < rank x) /\
  (forall c k, classes_of h !! c = Some k ->
     NoDup (map fst (class_fields k)) /\
     forall p, In p (class_fields k) -> exists g, fields_of h !! snd p = Some g /\ name g = fst p).
Proof.
  unfold well_formedb. rewrite !andb_true_iff, !forallb_forall.
  intros [[Hb Hf] Hc]. apply boundedb_bounded in Hb.
  assert (Hf' : forall x f, fields_of h !! x = Some f -> field_okb h rank x f = true).
  { intros x f Hx. apply (Hf (x, f)). apply list_elem_of_In, elem_of_map_to_list, Hx. }
  assert (Hc' : forall c k, classes_of h !! c = Some k -> class_okb h k = true).
  { intros c k Hx. apply (Hc (c, k)). apply list_elem_of_In, elem_of_map_to_list, Hx. }
  split; [exact Hb|]. split; [|split; [|split]].
  - intros x f c Hx Hr. specialize (Hf' x f Hx). unfold field_okb in Hf'.
    rewrite Hr, !andb_true_iff, bool_decide_eq_true in Hf'. tauto.
  - intros x f s Hx Hs. specialize (Hf' x f Hx). unfold field_okb in Hf'.
    rewrite !andb_true_iff, forallb_forall in Hf'. destruct Hf' as [[_ Hsub] _].
    specialize (Hsub s Hs). rewrite andb_true_iff, bool_decide_eq_true, Nat.ltb_lt in Hsub.
    exact Hsub.
  - intros x f k Hx Hk. specialize (Hf' x f Hx). unfold field_okb in Hf'.
    rewrite Hk, !andb_true_iff, bool_decide_eq_true, Nat.ltb_lt in Hf'. tauto.
  - intros c k Hx. specialize (Hc' c k Hx). unfold class_okb in Hc'.
    rewrite andb_true_iff, bool_decide_eq_true, forallb_forall in Hc'.
    destruct Hc' as [Hnd Hall]. split; [exact Hnd|].
    intros p Hp. specialize (Hall p Hp). destruct (fields_of h !! snd p) as [g|]; [|discriminate].
    exists g. split; [reflexivity|]. apply String.eqb_eq, Hall.
Qed.

Lemma type_corr_mono m m' t t' : m ⊆ m' -> type_corr m t t' -> type_corr m' t t'.
Proof.
  unfold type_corr. intros Hm. destruct (model_ref t); [|auto].
  intros (u & Hu & ->). exists u. split; [eapply lookup_weaken; eauto | reflexivity].
Qed.

(** [model_field_corr] and [field_corr_mf] only read [cloned_types] as it
    grows, fields [o] and [n], and [S] as it grows. *)
Lemma model_field_corr_mono P m m' fo fn :
  m ⊆ m' -> model_field_corr P m fo fn -> model_field_corr P m' fo fn.
Proof.
  intros Hm (t' & nf & Ht & Hnf & Hn & Hty). exists t', nf.
  split; [eapply type_corr_mono; eauto|]. auto.
Qed.

Lemma field_corr_mf_frame P h h' m m' S S' o n :
  field_corr_mf P h m S o n ->
  fields_of h' !! o = fields_of h !! o -> fields_of h' !! n = fields_of h !! n ->
  m ⊆ m' -> incl S S' -> field_corr_mf P h' m' S' o n.
Proof.
  intros (fo & fn & Ho & Hn & Hmf & H2 & H3 & H4 & H5 & H6 & H7 & H8 & H9 & H10 & H11 & Hsub & Hkey)
    Eo En Hm HS.
  exists fo, fn. rewrite Eo, En. do 2 (split; [assumption|]).
  split; [eapply model_field_corr_mono; eauto|]. repeat (split; [assumption|]). split.
  - intros y ys Hy. destruct (Hsub y ys Hy) as (zs & Hz & HF). exists zs. split; [exact Hz|].
    eapply Forall2_impl; [exact HF|]. intros a b Hab. apply HS, Hab.
  - intros k Hk. destruct (Hkey k Hk) as (k' & Hk' & HS'). exists k'. split; [exact Hk'|]. apply HS, HS'.
Qed.

Lemma entries_corr_mono S S' a b :
  Forall2 (entry_corr S) a b -> incl S S' -> Forall2 (entry_corr S') a b.
Proof.
  intros HF HS. eapply Forall2_impl; [exact HF|]. intros p q [H1 H2]. split; [exact H1 | apply HS, H2].
Qed.

Lemma class_corr_frame h h' S S' c u :
  class_corr h S c u ->
  classes_of h' !! c = classes_of h !! c -> classes_of h' !! u = classes_of h !! u ->
  incl S S' -> class_corr h' S' c u.
Proof.
  intros (kc & ku & Hc & Hu & Hn & HF) Ec Eu HS. exists kc, ku. rewrite Ec, Eu.
  do 3 (split; [assumption|]). eapply entries_corr_mono; eauto.
Qed.

Lemma entries_corr_keys S a b : Forall2 (entry_corr S) a b -> map fst b = map fst a.
Proof. induction 1 as [|p q a b [Hk _] _ IH]; simpl; [reflexivity|]. rewrite Hk, IH. reflexivity. Qed.

(** [__fields__[k] = v] replaces the entry of [k] in place. *)
Lemma fields_set_app k v v0 pre rest :
  ~ In k (map fst pre) -> fields_set k v (pre ++ (k, v0) :: rest) = pre ++ (k, v) :: rest.
Proof.
  induction pre as [|[k' v'] pre IH]; intros Hk; simpl.
  - rewrite String.eqb_refl. reflexivity.
  - simpl in Hk. destruct (String.eqb k k') eqn:E.
    + apply String.eqb_eq in E. subst. tauto.
    + rewrite IH by tauto. reflexivity.
Qed.

Lemma count_unmemo_mono m m' cs : m ⊆ m' -> count_unmemo m' cs <= count_unmemo m cs.
Proof.
  intros Hm. induction cs as [|c cs IH]; simpl; [lia|].
  destruct (m !! c) as [u|] eqn:E.
  - rewrite (lookup_weaken m m' c u E Hm). exact IH.
  - destruct (m' !! c); lia.
Qed.

Lemma count_unmemo_insert m c u cs :
  In c cs -> m !! c = None -> count_unmemo (<[c := u]> m) cs < count_unmemo m cs.
Proof.
  intros Hin Hc. induction cs as [|c' cs IH]; [destruct Hin|]. simpl.
  destruct (decide (c' = c)) as [->|Hne].
  - rewrite lookup_insert_eq, Hc.
    pose proof (count_unmemo_mono m (<[c := u]> m) cs (insert_subseteq m c u Hc)). lia.
  - rewrite lookup_insert_ne by congruence. destruct Hin as [Heq|Hin]; [congruence|].
    specialize (IH Hin). destruct (m !! c'); lia.
Qed.

Lemma class_locs_in h c k : classes_of h !! c = Some k -> In c (class_locs h).
Proof.
  intros Hc. unfold class_locs. apply (in_map fst _ (c, k)).
  apply list_elem_of_In, elem_of_map_to_list, Hc.
Qed.

Lemma rank_le_max h rank x f : fields_of h !! x = Some f -> rank x <= max_rank h rank.
Proof.
  intros Hx. unfold max_rank.
  assert (Hin : In (rank x) (map (fun p => rank (fst p)) (map_to_list (fields_of h)))).
  { apply (in_map (fun p => rank (fst p)) _ (x, f)). apply list_elem_of_In, elem_of_map_to_list, Hx. }
  pose proof (proj1 (list_max_le (map (fun p => rank (fst p)) (map_to_list (fields_of h))) _) (le_n _)) as HF.
  rewrite Forall_forall in HF. apply HF, list_elem_of_In, Hin.
Qed.

(** A [cloned_types] dict that only grows keeps old entries. *)
Definition newin (m m' : memo) (cs : list (loc * loc)) : Prop :=
  forall c u, m !! c = None -> m' !! c = Some u -> In (c, u) cs.

Lemma newin_refl m : newin m m [].
Proof. intros c u H1 H2. congruence. Qed.

Lemma newin_trans m1 m2 m3 cs1 cs2 :
  newin m1 m2 cs1 -> newin m2 m3 cs2 -> m2 ⊆ m3 -> newin m1 m3 (cs1 ++ cs2).
Proof.
  intros H12 H23 Hm c u H1 H3. apply in_or_app.
  destruct (m2 !! c) as [u'|] eqn:E2.
  - left. rewrite (lookup_weaken m2 m3 c u' E2 Hm) in H3. injection H3 as ->. apply H12; assumption.
  - right. apply H23; assumption.
Qed.

Lemma loop_ok_refl u h m : bounded h -> loop_ok u h m h m.
Proof. intros Hb. split; [exact Hb|]. split; [lia|]. split; [intros x _; auto | reflexivity]. Qed.

Lemma loop_ok_trans u h1 m1 h2 m2 h3 m3 :
  loop_ok u h1 m1 h2 m2 -> loop_ok u h2 m2 h3 m3 -> loop_ok u h1 m1 h3 m3.
Proof.
  intros (Hb2 & Hn12 & Hk12 & Hm12) (Hb3 & Hn23 & Hk23 & Hm23).
  split; [exact Hb3|]. split; [lia|]. split; [|etrans; eauto].
  intros x Hx. destruct (Hk12 x Hx) as [F1 C1]. destruct (Hk23 x ltac:(lia)) as [F2 C2].
  split; [congruence|]. intros Hxu. rewrite (C2 Hxu). exact (C1 Hxu).
Qed.

Lemma step_ok_loop_ok u h m h' m' : step_ok h m h' m' -> loop_ok u h m h' m'.
Proof.
  intros (Hb & Hn & Hk & Hm). split; [exact Hb|]. split; [exact Hn|]. split; [|exact Hm].
  intros x Hx. destruct (Hk x Hx) as [F C]. auto.
Qed.

Lemma loop_ok_write_class u h m k :
  bounded h -> u < next_loc h ->
  loop_ok u h m (Heap (fields_of h) (<[u := k]> (classes_of h)) (next_loc h)) m.
Proof.
  intros Hb Hu. split; [apply bounded_write_class; assumption|]. split; [simpl; lia|].
  split; [|reflexivity]. intros x _. simpl. split; [reflexivity|].
  intros Hxu. rewrite lookup_insert_ne by congruence. reflexivity.
Qed.

Section Correspondence.
Variable P : pydantic.
Hypothesis HV1 : PYDANTIC_V2 P = false.
(** The heap before the top-level call, and a rank for its fields. *)
Variable h0 : heap.
Variable rank : loc -> nat.
Hypothesis Hb0 : bounded h0.
Hypothesis Hty : forall x f c, fields_of h0 !! x = Some f -> model_ref (type_ f) = Some c ->
  is_Some (classes_of h0 !! c).
Hypothesis Hsubw : forall x f s, fields_of h0 !! x = Some f -> In s (sub_list f) ->
  is_Some (fields_of h0 !! s) /\ rank s < rank x.
Hypothesis Hkeyw : forall x f k, fields_of h0 !! x = Some f -> key_field f = Some k ->
  is_Some (fields_of h0 !! k) /\ rank k < rank x.
Hypothesis Hclsw : forall c k, classes_of h0 !! c = Some k ->
  NoDup (map fst (class_fields k)) /\
  forall p, In p (class_fields k) -> exists g, fields_of h0 !! snd p = Some g /\ name g = fst p.

(** The objects of [h0] are still there, unchanged. *)
Definition inv (h : heap) : Prop :=
  bounded h /\ next_loc h0 <= next_loc h /\ keeps_below (next_loc h0) h0 h.

(** Originals are objects of [h0]; clones lie in [[lo, hi)]. *)
Definition in_range (ps cs : list (loc * loc)) (lo hi : loc) : Prop :=
  (forall o n, In (o, n) ps -> o < next_loc h0 /\ lo <= n < hi) /\
  (forall c u, In (c, u) cs -> c < next_loc h0 /\ lo <= u < hi).

(** Every pair of [ps] is a field clone, every pair of [cs] a class
    clone recorded in [cloned_types]. *)
Definition valid (h : heap) (m : memo) (ps cs : list (loc * loc)) : Prop :=
  (forall o n, In (o, n) ps -> field_corr_mf P h m ps o n) /\
  (forall c u, In (c, u) cs -> class_corr h ps c u /\ m !! c = Some u).

(** What one call guarantees: it only allocates and writes its own
    objects, returns a clone of its argument, and every class it adds
    to [cloned_types] is a clone. *)
Definition corr_post (h : heap) (m : memo) (l l' : loc) (h' : heap) (m' : memo) : Prop :=
  step_ok h m h' m' /\
  exists ps cs, In (l, l') ps /\ valid h' m' ps cs /\ in_range ps cs (next_loc h) (next_loc h') /\
    newin m m' cs.

Lemma orig_field (x : loc) f : fields_of h0 !! x = Some f -> x < next_loc h0.
Proof. intros Hx. exact (proj1 Hb0 x f Hx). Qed.

Lemma orig_class (x : loc) k : classes_of h0 !! x = Some k -> x < next_loc h0.
Proof. intros Hx. exact (proj2 Hb0 x k Hx). Qed.

Lemma inv_h0 : inv h0.
Proof. split; [exact Hb0|]. split; [lia|]. intros x _. auto. Qed.

Lemma inv_orig h (x : loc) : inv h -> x < next_loc h0 ->
  fields_of h !! x = fields_of h0 !! x /\ classes_of h !! x = classes_of h0 !! x.
Proof. intros (_ & _ & Hk) Hx. apply Hk, Hx. Qed.

Lemma inv_step h m h' m' : inv h -> step_ok h m h' m' -> inv h'.
Proof.
  intros (Hb & Hn & Hk) (Hb' & Hn' & Hk' & _). split; [exact Hb'|]. split; [lia|].
  intros x Hx. destruct (Hk x Hx) as [F C]. destruct (Hk' x ltac:(lia)) as [F' C'].
  split; congruence.
Qed.

Lemma inv_loop u h m h' m' : inv h -> next_loc h0 <= u -> loop_ok u h m h' m' -> inv h'.
Proof.
  intros (Hb & Hn & Hk) Hu (Hb' & Hn' & Hk' & _). split; [exact Hb'|]. split; [lia|].
  intros x Hx. destruct (Hk x Hx) as [F C]. destruct (Hk' x ltac:(lia)) as [F' C'].
  split; [congruence|]. rewrite C' by lia. exact C.
Qed.

Lemma valid_nil h m : valid h m [] [].
Proof. split; intros ? ? []. Qed.

Lemma in_range_nil lo hi : in_range [] [] lo hi.
Proof. split; intros ? ? []. Qed.

Lemma in_range_app ps1 cs1 ps2 cs2 lo hi :
  in_range ps1 cs1 lo hi -> in_range ps2 cs2 lo hi -> in_range (ps1 ++ ps2) (cs1 ++ cs2) lo hi.
Proof.
  intros [H1 H2] [H3 H4]. split.
  - intros o n [Hin|Hin]%in_app_or; auto.
  - intros c u [Hin|Hin]%in_app_or; auto.
Qed.

Lemma in_range_weaken ps cs lo hi lo' hi' :
  in_range ps cs lo hi -> lo' <= lo -> hi <= hi' -> in_range ps cs lo' hi'.
Proof.
  intros [H1 H2] Hlo Hhi. split.
  - intros o n Hin. destruct (H1 o n Hin). lia.
  - intros c u Hin. destruct (H2 c u Hin). lia.
Qed.

(** [valid] survives steps that leave the objects it reads alone. *)
Lemma valid_agree h h' m m' ps cs lo hi :
  valid h m ps cs -> in_range ps cs lo hi ->
  (forall x : loc, x < next_loc h0 \/ lo <= x < hi ->
     fields_of h' !! x = fields_of h !! x /\ classes_of h' !! x = classes_of h !! x) ->
  m ⊆ m' -> valid h' m' ps cs.
Proof.
  intros [Hf Hc] [Rf Rc] Hag Hm. split.
  - intros o n Hin. destruct (Rf o n Hin) as [Ho Hn].
    eapply field_corr_mf_frame; [apply Hf, Hin | apply Hag; lia | apply Hag; lia | exact Hm | apply incl_refl].
  - intros c u Hin. destruct (Rc c u Hin) as [Hc' Hu]. destruct (Hc c u Hin) as [Hcc Hmc].
    split; [|eapply lookup_weaken; eauto].
    eapply class_corr_frame; [exact Hcc | apply Hag; lia | apply Hag; lia | apply incl_refl].
Qed.

Lemma valid_app h m ps1 cs1 ps2 cs2 :
  valid h m ps1 cs1 -> valid h m ps2 cs2 -> valid h m (ps1 ++ ps2) (cs1 ++ cs2).
Proof.
  intros [F1 C1] [F2 C2]. split.
  - intros o n [Hin|Hin]%in_app_or.
    + eapply field_corr_mf_frame; [apply F1, Hin | reflexivity | reflexivity | reflexivity | apply incl_appl, incl_refl].
    + eapply field_corr_mf_frame; [apply F2, Hin | reflexivity | reflexivity | reflexivity | apply incl_appr, incl_refl].
  - intros c u [Hin|Hin]%in_app_or.
    + destruct (C1 c u Hin) as [Hcc Hm]. split; [|exact Hm].
      eapply class_corr_frame; [exact Hcc | reflexivity | reflexivity | apply incl_appl, incl_refl].
    + destruct (C2 c u Hin) as [Hcc Hm]. split; [|exact Hm].
      eapply class_corr_frame; [exact Hcc | reflexivity | reflexivity | apply incl_appr, incl_refl].
Qed.

(** A step that keeps everything below [next_loc] keeps [valid]. *)
Lemma valid_step h m h' m' ps cs lo :
  valid h m ps cs -> in_range ps cs lo (next_loc h) -> next_loc h0 <= next_loc h ->
  step_ok h m h' m' -> valid h' m' ps cs.
Proof.
  intros Hv Hr Hn (_ & _ & Hk & Hm). eapply valid_agree; [exact Hv | exact Hr | | exact Hm].
  intros x Hx. apply Hk. lia.
Qed.

(** The class-field loop, run on the entries [rest] of [__fields__]
    after [done] have been cloned into [done']. *)
Lemma clone_fields_corr fuel (u : loc) nm fs :
  (forall l h m, inv h -> is_Some (fields_of h0 !! l) ->
     clone_measure h0 rank m l < fuel ->
     wp False (create_cloned_field P fuel l) (corr_post h m l) h m) ->
  NoDup (map fst fs) ->
  (forall p, In p fs -> exists g, fields_of h0 !! snd p = Some g /\ name g = fst p) ->
  next_loc h0 <= u ->
  forall rest done done' h m ps cs,
    fs = done ++ rest -> inv h -> u < next_loc h ->
    classes_of h !! u = Some (ModelClass nm (done' ++ rest)) ->
    Forall2 (entry_corr ps) done done' ->
    valid h m ps cs -> in_range ps cs (S u) (next_loc h) ->
    count_unmemo m (class_locs h0) * S (max_rank h0 rank) + max_rank h0 rank < fuel ->
    wp False (clone_fields (create_cloned_field P fuel) u rest)
      (fun _ h' m' => loop_ok u h m h' m' /\
         exists ps' cs' done'', classes_of h' !! u = Some (ModelClass nm done'') /\
           Forall2 (entry_corr ps') fs done'' /\ valid h' m' ps' cs' /\
           in_range ps' cs' (S u) (next_loc h') /\ newin m m' cs' /\ incl cs cs') h m.
Proof.
  intros IH Hnd Hnames Hu0.
  induction rest as [|[k fl] rest IHr];
    intros done done' h m ps cs Hfs Hinv Hu Hcu HF Hv Hr Hmeas; simpl.
  - apply wp_ret. split; [apply loop_ok_refl, (proj1 Hinv)|].
    exists ps, cs, done'. rewrite app_nil_r in Hfs, Hcu. subst fs.
    split; [exact Hcu|]. split; [exact HF|]. split; [exact Hv|]. split; [exact Hr|].
    split; [intros c u' H1 H2; congruence | apply incl_refl].
  - pose proof Hinv as (_ & Hh0 & _).
    assert (Hin : In (k, fl) fs) by (rewrite Hfs; apply in_or_app; right; left; reflexivity).
    destruct (Hnames _ Hin) as (g0 & Hg0 & Hname). simpl in Hg0, Hname.
    apply wp_bind. eapply wp_mono.
    { apply IH; [exact Hinv | eexists; exact Hg0 |].
      unfold clone_measure. pose proof (rank_le_max h0 rank fl g0 Hg0). lia. }
    intros cl h1 m1 (Hs1 & ps1 & cs1 & Hin1 & Hv1 & Hr1 & Hn1).
    pose proof (inv_step h m h1 m1 Hinv Hs1) as Hinv1.
    pose proof Hs1 as (Hb1 & Hn1' & Hk1 & Hm1).
    apply wp_bind, wp_read_field. intros g Hg.
    assert (E := proj1 (inv_orig h1 fl Hinv1 (orig_field fl g0 Hg0))).
    assert (Hgg : Some g0 = Some g) by exact (eq_trans (eq_sym Hg0) (eq_trans (eq_sym E) Hg)).
    injection Hgg as <-.
    apply wp_bind, wp_read_class. intros kc Hkc.
    rewrite (proj2 (Hk1 u Hu)), Hcu in Hkc. injection Hkc as <-.
    apply wp_bind, wp_write_class. simpl.
    rewrite Hname, fields_set_app.
    2: { rewrite (entries_corr_keys _ _ _ HF). subst fs. rewrite map_app in Hnd. simpl in Hnd.
         apply NoDup_app in Hnd. destruct Hnd as (_ & Hdis & _). intros Hk.
         apply (Hdis k); [apply list_elem_of_In, Hk | apply list_elem_of_In; left; reflexivity]. }
    eapply wp_mono.
    { apply (IHr (done ++ [(k, fl)]) (done' ++ [(k, cl)]) _ m1 (ps ++ ps1) (cs ++ cs1)).
      - rewrite Hfs, <- app_assoc. reflexivity.
      - eapply (inv_loop u h1 m1); [exact Hinv1 | exact Hu0 | apply loop_ok_write_class; [exact Hb1 | lia]].
      - simpl. lia.
      - simpl. rewrite lookup_insert_eq, <- app_assoc. reflexivity.
      - apply Forall2_app; [eapply entries_corr_mono; [exact HF | apply incl_appl, incl_refl]|].
        constructor; [|constructor]. split; [reflexivity|]. apply in_or_app; right; exact Hin1.
      - apply valid_app.
        + eapply valid_agree; [exact Hv | exact Hr | | exact Hm1].
          intros x Hx. simpl. rewrite lookup_insert_ne by lia. apply Hk1. lia.
        + eapply valid_agree; [exact Hv1 | exact Hr1 | | reflexivity].
          intros x Hx. simpl. rewrite lookup_insert_ne by lia. auto.
      - apply in_range_app.
        + eapply in_range_weaken; [exact Hr | lia | simpl; lia].
        + eapply in_range_weaken; [exact Hr1 | lia | simpl; lia].
      - pose proof (count_unmemo_mono m m1 (class_locs h0) Hm1).
        pose proof (Nat.mul_le_mono_r _ _ (S (max_rank h0 rank)) H). lia. }
    intros [] h' m' (HL & ps' & cs' & done'' & Hcu' & HF' & Hv' & Hr' & Hn' & Hincl).
    split.
    + eapply loop_ok_trans; [apply step_ok_loop_ok, Hs1|].
      eapply loop_ok_trans; [apply loop_ok_write_class; [exact Hb1 | lia] | exact HL].
    + exists ps', cs', done''. do 4 (split; [assumption|]). split.
      * intros c u' H1 H2. pose proof HL as (_ & _ & _ & HmL).
        destruct (in_app_or _ _ _ (newin_trans m m1 m' cs1 cs' Hn1 Hn' HmL c u' H1 H2)) as [Hx|Hx].
        -- apply Hincl, in_or_app. right. exact Hx.
        -- exact Hx.
      * intros x Hx. apply Hincl, in_or_app. left. exact Hx.
Qed.

Lemma step_ok_alloc_class h m k :
  bounded h ->
  step_ok h m (Heap (fields_of h) (<[next_loc h := k]> (classes_of h)) (S (next_loc h))) m.
Proof.
  intros Hb. split; [apply bounded_alloc_class, Hb|]. split; [simpl; lia|].
  split; [|reflexivity]. intros x Hx. simpl. rewrite lookup_insert_ne by lia. auto.
Qed.

Lemma step_ok_alloc_field h m f :
  bounded h ->
  step_ok h m (Heap (<[next_loc h := f]> (fields_of h)) (classes_of h) (S (next_loc h))) m.
Proof.
  intros Hb. split; [apply bounded_alloc_field, Hb|]. split; [simpl; lia|].
  split; [|reflexivity]. intros x Hx. simpl. rewrite lookup_insert_ne by lia. auto.
Qed.

(** [use_type]: the model class of the field's type is looked up in
    [cloned_types], or cloned. *)
Lemma use_type_corr fuel (f : mfield) h m :
  (forall l h m, inv h -> is_Some (fields_of h0 !! l) ->
     clone_measure h0 rank m l < fuel ->
     wp False (create_cloned_field P fuel l) (corr_post h m l) h m) ->
  inv h ->
  (forall c, model_ref (type_ f) = Some c -> is_Some (classes_of h0 !! c)) ->
  count_unmemo m (class_locs h0) * S (max_rank h0 rank) <= fuel ->
  wp False
    (let original_type :=
       match type_ f with
       | TDataclass _ (Some pm) => TModel pm
       | t => t
       end in
     match original_type with
     | TModel c =>
         cached ← memo_get c;
         match cached with
         | Some u => mret (TModel u)
         | None =>
             cls ← read_class c;
             u ← create_model (class_name cls) cls;
             memo_set c u;;
             clone_fields (create_cloned_field P fuel) u (class_fields cls);;
             mret (TModel u)
         end
     | t => mret t
     end)
    (fun ut h1 m1 => step_ok h m h1 m1 /\ type_corr m1 (type_ f) ut /\
       exists ps cs, valid h1 m1 ps cs /\ in_range ps cs (next_loc h) (next_loc h1) /\
                     newin m m1 cs) h m.
Proof.
  intros IH Hinv Hty' Hmeas. pose proof Hinv as (Hb & Hh0 & Hk).
  assert (Hmodel : forall c, is_Some (classes_of h0 !! c) ->
    wp False
      (cached ← memo_get c;
       match cached with
       | Some u => mret (TModel u)
       | None =>
           cls ← read_class c;
           u ← create_model (class_name cls) cls;
           memo_set c u;;
           clone_fields (create_cloned_field P fuel) u (class_fields cls);;
           mret (TModel u)
       end)
      (fun ut h1 m1 => step_ok h m h1 m1 /\ (exists u, m1 !! c = Some u /\ ut = TModel u) /\
         exists ps cs, valid h1 m1 ps cs /\ in_range ps cs (next_loc h) (next_loc h1) /\
                       newin m m1 cs) h m).
  { intros c [cls0 Hc0]. pose proof (orig_class c cls0 Hc0) as Hclt.
    apply wp_bind, wp_memo_get. destruct (m !! c) as [u|] eqn:Hmc.
    - apply wp_ret. split; [apply step_ok_refl, Hb|]. split; [exists u; auto|].
      exists [], []. split; [apply valid_nil|]. split; [apply in_range_nil | apply newin_refl].
    - apply wp_bind, wp_read_class. intros cls Hcls.
      assert (Hcc : Some cls0 = Some cls)
        by exact (eq_trans (eq_sym Hc0) (eq_trans (eq_sym (proj2 (inv_orig h c Hinv Hclt))) Hcls)).
      injection Hcc as <-.
      destruct (Hclsw c cls0 Hc0) as [Hnd Hnames].
      apply wp_bind, wp_create_model. apply wp_bind, wp_memo_set. apply wp_bind.
      pose proof (count_unmemo_insert m c (next_loc h) (class_locs h0)
                    (class_locs_in h0 c cls0 Hc0) Hmc) as Hlt.
      eapply wp_mono.
      { apply (clone_fields_corr fuel (next_loc h) (class_name cls0) (class_fields cls0) IH Hnd
                 Hnames ltac:(lia) (class_fields cls0) [] [] _ _ [] []).
        - reflexivity.
        - eapply (inv_step h m _ m); [exact Hinv | apply step_ok_alloc_class, Hb].
        - simpl. lia.
        - simpl. rewrite lookup_insert_eq. reflexivity.
        - constructor.
        - apply valid_nil.
        - apply in_range_nil.
        - nia. }
      intros [] hL mL (HL & ps & cs & done'' & Hcu & HF & Hv & Hr & Hn & _).
      apply wp_ret. pose proof HL as (HbL & HnL & HkL & HmL). simpl in HnL, HkL.
      assert (HcL : classes_of hL !! c = Some cls0).
      { destruct (HkL c ltac:(lia)) as [_ C]. rewrite C by lia. simpl.
        rewrite lookup_insert_ne by lia. exact (eq_trans (proj2 (inv_orig h c Hinv Hclt)) Hc0). }
      assert (HmcL : mL !! c = Some (next_loc h))
        by (eapply lookup_weaken; [apply lookup_insert_eq | exact HmL]).
      split; [|split].
      + split; [exact HbL|]. split; [lia|]. split.
        * intros x Hx. destruct (HkL x ltac:(lia)) as [F C]. rewrite F, C by lia. simpl.
          rewrite !lookup_insert_ne by lia. auto.
        * etrans; [apply insert_subseteq, Hmc | exact HmL].
      + exists (next_loc h). split; [exact HmcL | reflexivity].
      + exists ps, ((c, next_loc h) :: cs). split; [|split].
        * destruct Hv as [Hf Hcl]. split; [exact Hf|].
          intros c' u' [Heq|Hin]; [|apply Hcl, Hin]. injection Heq as <- <-.
          split; [|exact HmcL].
          exists cls0, (ModelClass (class_name cls0) done''). split; [exact HcL|].
          split; [exact Hcu|]. split; [reflexivity | exact HF].
        * destruct Hr as [R1 R2]. split.
          -- intros o n Hin. destruct (R1 o n Hin). lia.
          -- intros c' u' [Heq|Hin]; [injection Heq as <- <-; lia|]. destruct (R2 _ _ Hin). lia.
        * intros c' u' H1 H2. destruct (decide (c' = c)) as [->|Hne].
          -- left. rewrite HmcL in H2. injection H2 as <-. reflexivity.
          -- right. apply Hn; [rewrite lookup_insert_ne by congruence; exact H1 | exact H2]. }
  destruct (type_ f) as [c|d [pm|]|x]; simpl.
  - eapply wp_mono; [apply Hmodel, (Hty' c eq_refl)|].
    intros ut h1 m1 (Hs & (u & Hu & ->) & Hrest). split; [exact Hs|].
    split; [exists u; auto | exact Hrest].
  - eapply wp_mono; [apply Hmodel, (Hty' pm eq_refl)|].
    intros ut h1 m1 (Hs & (u & Hu & ->) & Hrest). split; [exact Hs|].
    split; [exists u; auto | exact Hrest].
  - apply wp_ret. split; [apply step_ok_refl, Hb|]. split; [reflexivity|].
    exists [], []. split; [apply valid_nil|]. split; [apply in_range_nil | apply newin_refl].
  - apply wp_ret. split; [apply step_ok_refl, Hb|]. split; [reflexivity|].
    exists [], []. split; [apply valid_nil|]. split; [apply in_range_nil | apply newin_refl].
Qed.

(** The main induction: with enough fuel a call never runs out of it,
    and when it returns, its result is a clone of its argument. *)
Lemma clone_corr fuel :
  forall l h m, inv h -> is_Some (fields_of h0 !! l) ->
    clone_measure h0 rank m l < fuel ->
    wp False (create_cloned_field P fuel l) (corr_post h m l) h m.
Proof.
  induction fuel as [|fuel IH]; intros l h m Hinv [f0 Hf0] Hmeas; [lia|].
  cbn [create_cloned_field]. rewrite HV1.
  pose proof Hinv as (Hb & Hh0 & Hk). pose proof (orig_field l f0 Hf0) as Hl.
  apply wp_bind, wp_read_field. intros f Hf.
  assert (Hff : Some f0 = Some f)
    by exact (eq_trans (eq_sym Hf0) (eq_trans (eq_sym (proj1 (inv_orig h l Hinv Hl))) Hf)).
  injection Hff as <-.
  unfold clone_measure in Hmeas.
  apply wp_bind. eapply wp_mono.
  { apply (use_type_corr fuel f0 h m IH Hinv);
      [intros c Hc; exact (Hty l f0 c Hf0 Hc) | lia]. }
  intros ut h1 m1 (Hs1 & Htc & psA & csA & HvA & HrA & HnA).
  pose proof (inv_step h m h1 m1 Hinv Hs1) as Hinv1. pose proof Hs1 as (Hb1 & Hn1 & Hk1 & Hm1).
  apply wp_bind, wp_create_response_field. intros nf Hnf.
  pose proof (step_ok_alloc_field h1 m1 nf Hb1) as Hs12.
  set (h2 := Heap (<[next_loc h1 := nf]> (fields_of h1)) (classes_of h1) (S (next_loc h1))) in *.
  pose proof (inv_step h1 m1 h2 m1 Hinv1 Hs12) as Hinv2.
  assert (Hnh2 : next_loc h2 = S (next_loc h1)) by reflexivity.
  apply wp_bind, wp_read_field. intros nf' Hnf'.
  simpl in Hnf'. rewrite lookup_insert_eq in Hnf'. injection Hnf' as <-.
  assert (Hcount : forall m', m ⊆ m' -> forall x, rank x < rank l ->
            count_unmemo m' (class_locs h0) * S (max_rank h0 rank) + rank x < fuel).
  { intros m' Hm' x Hx. pose proof (count_unmemo_mono m m' (class_locs h0) Hm').
    pose proof (Nat.mul_le_mono_r _ _ (S (max_rank h0 rank)) H). lia. }
  apply wp_bind.
  eapply wp_mono with (Q := fun sub h3 m3 => step_ok h2 m1 h3 m3 /\
      exists psB csB, valid h3 m3 psB csB /\ in_range psB csB (next_loc h2) (next_loc h3) /\
        newin m1 m3 csB /\
        (forall y ys, sub_fields f0 = Some (y :: ys) ->
           exists zs, sub = Some zs /\ Forall2 (fun a b => In (a, b) psB) (y :: ys) zs)).
  { destruct (sub_fields f0) as [[|y ys]|] eqn:Hsub.
    - apply wp_ret. split; [apply step_ok_refl, (proj1 Hs12)|]. exists [], [].
      split; [apply valid_nil|]. split; [apply in_range_nil|]. split; [apply newin_refl|].
      discriminate.
    - apply wp_bind.
      eapply wp_mono; [apply (wp_mapM _ _ (y :: ys)
          (fun h' m' => inv h' /\ step_ok h2 m1 h' m')
          (fun x z ha ma hb mb => inv ha /\ corr_post ha ma x z hb mb)
          (fun xs zs ha ma hb mb =>
             next_loc ha <= next_loc hb /\ keeps_below (next_loc ha) ha hb /\ ma ⊆ mb /\
             exists ps cs, Forall2 (fun a b => In (a, b) ps) xs zs /\ valid hb mb ps cs /\
               in_range ps cs (next_loc ha) (next_loc hb) /\ newin ma mb cs))|].
      + intros h' m'. split; [lia|]. split; [intros x _; auto|]. split; [reflexivity|].
        exists [], []. split; [constructor|]. split; [apply valid_nil|].
        split; [apply in_range_nil | apply newin_refl].
      + intros x z zs xs ha ma hb mb hc mc [Hinva (Hsab & ps1 & cs1 & Hin1 & Hv1 & Hr1 & Hw1)]
          (Hnbc & Hkbc & Hmbc & ps2 & cs2 & HF2 & Hv2 & Hr2 & Hw2).
        pose proof Hsab as (_ & Hnab & Hkab & Hmab). pose proof Hinva as (_ & Hh0a & _).
        split; [lia|]. split.
        { intros x0 Hx0. destruct (Hkab x0 Hx0) as [F1 C1].
          destruct (Hkbc x0 ltac:(lia)) as [F2 C2]. split; congruence. }
        split; [etrans; eauto|].
        exists (ps1 ++ ps2), (cs1 ++ cs2). split.
        { constructor; [apply in_or_app; left; exact Hin1|].
          eapply Forall2_impl; [exact HF2|]. intros a b Hab. apply in_or_app; right; exact Hab. }
        split; [|split].
        * apply valid_app; [|exact Hv2].
          eapply valid_agree; [exact Hv1 | exact Hr1 | | exact Hmbc].
          intros x0 Hx0. apply Hkbc. lia.
        * apply in_range_app.
          -- eapply in_range_weaken; [exact Hr1 | lia | lia].
          -- eapply in_range_weaken; [exact Hr2 | lia | lia].
        * apply (newin_trans ma mb mc cs1 cs2 Hw1 Hw2 Hmbc).
      + intros x h' m' Hx [HI HS].
        assert (Hxs : In x (sub_list f0)) by (unfold sub_list; rewrite Hsub; exact Hx).
        destruct (Hsubw l f0 x Hf0 Hxs) as [Hxe Hxr].
        eapply wp_mono; [apply IH; [exact HI | exact Hxe |]|].
        * unfold clone_measure. apply Hcount; [|exact Hxr].
          etrans; [exact Hm1|]. exact (proj2 (proj2 (proj2 HS))).
        * intros z h'' m'' Hpost. split; [split|].
          -- eapply inv_step; [exact HI | exact (proj1 Hpost)].
          -- eapply step_ok_trans; [exact HS | exact (proj1 Hpost)].
          -- split; [exact HI | exact Hpost].
      + split; [exact Hinv2 | apply step_ok_refl, (proj1 Hs12)].
      + intros subs h3 m3 [[HI3 HS3] (_ & _ & _ & ps & cs & HF & Hv & Hr & Hn)].
        apply wp_ret. split; [exact HS3|]. exists ps, cs.
        split; [exact Hv|]. split; [exact Hr|]. split; [exact Hn|].
        intros y' ys' [= <- <-]. exists subs. split; [reflexivity | exact HF].
    - apply wp_ret. split; [apply step_ok_refl, (proj1 Hs12)|]. exists [], [].
      split; [apply valid_nil|]. split; [apply in_range_nil|]. split; [apply newin_refl|].
      discriminate. }
  intros sub h3 m3 (Hs23 & psB & csB & HvB & HrB & HnB & HsubB).
  pose proof (inv_step h2 m1 h3 m3 Hinv2 Hs23) as Hinv3.
  pose proof Hs23 as (Hb3 & Hn23 & Hk23 & Hm13).
  apply wp_bind.
  eapply wp_mono with (Q := fun key h4 m4 => step_ok h3 m3 h4 m4 /\
      exists psC csC, valid h4 m4 psC csC /\ in_range psC csC (next_loc h3) (next_loc h4) /\
        newin m3 m4 csC /\
        (forall k, key_field f0 = Some k -> exists k', key = Some k' /\ In (k, k') psC)).
  { destruct (key_field f0) as [kf|] eqn:Hkf.
    - apply wp_bind. destruct (Hkeyw l f0 kf Hf0 Hkf) as [Hkx Hkr].
      eapply wp_mono; [apply IH; [exact Hinv3 | exact Hkx |]|].
      + unfold clone_measure. apply Hcount; [|exact Hkr]. etrans; [exact Hm1 | exact Hm13].
      + intros k' h4 m4 (Hs34 & ps & cs & Hin & Hv & Hr & Hn). apply wp_ret.
        split; [exact Hs34|]. exists ps, cs. split; [exact Hv|]. split; [exact Hr|].
        split; [exact Hn|]. intros k [= <-]. exists k'. split; [reflexivity | exact Hin].
    - apply wp_ret. split; [apply step_ok_refl, Hb3|]. exists [], [].
      split; [apply valid_nil|]. split; [apply in_range_nil|]. split; [apply newin_refl|].
      discriminate. }
  intros key h4 m4 (Hs34 & psC & csC & HvC & HrC & HnC & HkeyC).
  pose proof Hs34 as (Hb4 & Hn34 & Hk34 & Hm34).
  pose proof (inv_step h3 m3 h4 m4 Hinv3 Hs34) as Hinv4.
  apply wp_bind, wp_write_field, wp_ret.
  assert (Hs04 : step_ok h m h4 m4)
    by (eapply step_ok_trans; [exact Hs1|]; eapply step_ok_trans; [exact Hs12|];
        eapply step_ok_trans; eauto).
  assert (Hs14 : step_ok h1 m1 h4 m4)
    by (eapply step_ok_trans; [exact Hs12|]; eapply step_ok_trans; eauto).
  simpl in Hn23.
  split; [apply step_ok_write_field; [exact Hs04 | simpl; lia]|].
  exists ((l, next_loc h1) :: psA ++ psB ++ psC), (csA ++ csB ++ csC).
  split; [left; reflexivity|]. split; [|split].
  - assert (Hrest : valid (Heap (<[next_loc h1 := copy_attributes P f0 nf sub key]> (fields_of h4))
                           (classes_of h4) (next_loc h4)) m4 (psA ++ psB ++ psC) (csA ++ csB ++ csC)).
    { apply valid_app; [|apply valid_app].
      - eapply valid_agree; [exact HvA | exact HrA | | etrans; [exact Hm13 | exact Hm34]].
        intros x Hx. simpl. rewrite lookup_insert_ne by lia.
        apply (proj1 (proj2 (proj2 Hs14))). lia.
      - eapply valid_agree; [exact HvB | exact HrB | | exact Hm34].
        intros x Hx. simpl. rewrite lookup_insert_ne by lia. apply Hk34. lia.
      - eapply valid_agree; [exact HvC | exact HrC | | reflexivity].
        intros x Hx. simpl. rewrite lookup_insert_ne by lia. auto. }
    destruct Hrest as [RF RC]. split.
    + intros o n [Heq|Hin].
      * injection Heq as <- <-.
        exists f0, (copy_attributes P f0 nf sub key). simpl.
        rewrite lookup_insert_ne by lia. rewrite lookup_insert_eq.
        split; [exact (eq_trans (proj1 (inv_orig h4 l Hinv4 Hl)) Hf0)|]. split; [reflexivity|].
        destruct (copy_attributes_spec P f0 nf sub key)
          as (Hn' & Ht' & H1 & H2 & H3 & H4 & H5 & H6 & H7 & H8 & Hs' & Hk' & H9 & H10).
        split; [exists ut, nf; split; [eapply type_corr_mono; [|exact Htc];
                                       etrans; [exact Hm13 | exact Hm34]|];
                split; [exact Hnf | split; [exact Hn' | exact Ht']]|].
        repeat (split; [assumption|]). split.
        -- intros y ys Hy. destruct (HsubB y ys Hy) as (zs & -> & HF). exists zs.
           split; [exact Hs'|]. eapply Forall2_impl; [exact HF|].
           intros a b Hab. right. apply in_or_app; right; apply in_or_app; left; exact Hab.
        -- intros k Hkk. destruct (HkeyC k Hkk) as (k' & -> & Hin). exists k'.
           split; [exact Hk'|]. right. apply in_or_app; right; apply in_or_app; right; exact Hin.
      * eapply field_corr_mf_frame; [apply RF, Hin | reflexivity | reflexivity | reflexivity|].
        intros p Hp. right. exact Hp.
    + intros c u Hin. destruct (RC c u Hin) as [Hcc Hmc]. split; [|exact Hmc].
      eapply class_corr_frame; [exact Hcc | reflexivity | reflexivity |].
      intros p Hp. right. exact Hp.
  - split.
    + intros o n [Heq|Hin].
      * injection Heq as <- <-. simpl. lia.
      * destruct (in_range_app _ _ _ _ _ _ (in_range_weaken _ _ _ _ (next_loc h) (next_loc h4) HrA ltac:(lia) ltac:(lia))
                  (in_range_app _ _ _ _ _ _ (in_range_weaken _ _ _ _ (next_loc h) (next_loc h4) HrB ltac:(simpl; lia) ltac:(lia))
                               (in_range_weaken _ _ _ _ (next_loc h) (next_loc h4) HrC ltac:(lia) ltac:(lia)))) as [R1 _].
        simpl. apply R1, Hin.
    + intros c u Hin.
      destruct (in_range_app _ _ _ _ _ _ (in_range_weaken _ _ _ _ (next_loc h) (next_loc h4) HrA ltac:(lia) ltac:(lia))
                  (in_range_app _ _ _ _ _ _ (in_range_weaken _ _ _ _ (next_loc h) (next_loc h4) HrB ltac:(simpl; lia) ltac:(lia))
                               (in_range_weaken _ _ _ _ (next_loc h) (next_loc h4) HrC ltac:(lia) ltac:(lia)))) as [_ R2].
      simpl. apply R2, Hin.
  - rewrite app_assoc. eapply newin_trans; [|exact HnC | exact Hm34].
    eapply newin_trans; [exact HnA | exact HnB | exact Hm13].
Qed.

End Correspondence.

(** C5 (as stated): the clone would always be structurally equal to the
    original, same name and [type_] included.  pydantic v1's [ModelField]
    analyses the type it is given: cloning a [List[List[int]]] field,
    whose [type_] is [List[int]], builds a field of [type_] [int]. *)
Lemma create_cloned_field_structure_counterexample :
  ~ (forall (P : pydantic) (h : heap) (rank : loc -> nat) (l : loc) (fuel : nat),
       PYDANTIC_V2 P = false -> well_formedb h rank = true -> is_Some (fields_of h !! l) ->
       clone_bound h rank l <= fuel ->
       forall l' h' m', create_cloned_field_top P fuel l h = Ok l' h' m' ->
         structurally_equal h' m' l l').
Proof.
  intros H.
  destruct (create_cloned_field_top pydantic_v1_list 10 0 list_heap) as [l' h' m'|e h' m'|] eqn:E;
    [|vm_compute in E; discriminate|vm_compute in E; discriminate].
  assert (Hs : structurally_equal h' m' 0 l').
  { apply (H pydantic_v1_list list_heap list_rank 0 10); [reflexivity | vm_compute; reflexivity
          | eexists; reflexivity | vm_compute; lia | exact E]. }
  vm_compute in E. injection E as <- <- <-.
  destruct Hs as (S & Hin & HF & _).
  destruct (HF _ _ Hin) as (fo & fn & Ho & Hn & _ & Ht & _).
  vm_compute in Ho, Hn. injection Ho as <-. injection Hn as <-.
  vm_compute in Ht. discriminate Ht.
Qed.

(** C5 (amended): [create_cloned_field] terminates on every field of
    well-formed data, recursive and self-referential model types
    included, whatever [ModelField] builds: with the fuel [clone_bound]
    (the number of model classes times one more than the largest rank,
    plus the rank of the field, plus one) it never runs out of recursion
    depth.  The bound holds because a class is cloned only when it is not
    yet in [cloned_types], and is recorded there before its fields are
    cloned, while sub-fields and key fields lower the rank.  When the call
    returns (it may raise if [ModelField] rejects a type), its result is
    structurally equal to the original up to what [ModelField] computes
    ([structurally_equal_mf]): the clone, and every sub-field, key field
    and cloned model class, has the attributes and structure of the
    original, while its name and [type_] are those of the field
    [ModelField] builds from the original's name and type with each model
    type replaced by its clone recorded in [cloned_types].  With pydantic
    v2 the call returns its argument at once.  Well-formed
    ([well_formedb]): every object lies below [next_loc]; types,
    sub-fields, key fields and class fields refer to existing objects;
    sub-fields and key fields have a smaller [rank] than their field,
    i.e. they form finite trees, as the field objects pydantic builds do;
    the keys of each [__fields__] are distinct and are the names of their
    fields. *)
Theorem create_cloned_field_terminates :
  forall (P : pydantic) (h : heap) (rank : loc -> nat) (l : loc) (fuel : nat),
    well_formedb h rank = true -> is_Some (fields_of h !! l) ->
    clone_bound h rank l <= fuel ->
    (PYDANTIC_V2 P = true -> create_cloned_field_top P fuel l h = Ok l h ∅) /\
    (PYDANTIC_V2 P = false ->
       create_cloned_field_top P fuel l h <> OutOfFuel /\
       forall l' h' m', create_cloned_field_top P fuel l h = Ok l' h' m' ->
         structurally_equal_mf P h' m' l l').
Proof.
  intros P h rank l fuel Hwf Hl Hfuel. split.
  - intros HV. destruct fuel as [|fuel]; [unfold clone_bound in Hfuel; lia|].
    unfold create_cloned_field_top. simpl. rewrite HV. reflexivity.
  - intros HV.
    destruct (well_formedb_spec h rank Hwf) as (Hb & Hty & Hsub & Hkey & Hcls).
    pose proof (clone_corr P HV h rank Hb Hty Hsub Hkey Hcls fuel l h ∅ (inv_h0 h Hb) Hl
                  ltac:(unfold clone_bound in Hfuel; lia)) as Hwp.
    unfold wp in Hwp. unfold create_cloned_field_top.
    destruct (create_cloned_field P fuel l h ∅) as [l' h' m'|e h' m'|]; [| |contradiction].
    + split; [discriminate|]. intros l2 h2 m2 [= <- <- <-].
      destruct Hwp as (_ & ps & cs & Hin & [HF HC] & _ & Hn).
      exists ps. split; [exact Hin|]. split; [exact HF|].
      intros c u Hcu. apply HC, Hn; [apply lookup_empty | exact Hcu].
    + split; [discriminate|]. intros ? ? ? [=].
Qed.

Lemma create_cloned_field_terminates_witness :
  well_formedb list_heap list_rank = true /\ is_Some (fields_of list_heap !! 0) /\
  clone_bound list_heap list_rank 0 <= 10 /\
  create_cloned_field_top pydantic_v1_list 10 0 list_heap <> OutOfFuel /\
  well_formedb node_heap (fun _ => 0) = true /\ is_Some (fields_of node_heap !! 1) /\
  clone_bound node_heap (fun _ => 0) 1 <= 2 /\
  create_cloned_field_top pydantic_v1 2 1 node_heap <> OutOfFuel.
Proof.
  assert (Hwf : well_formedb list_heap list_rank = true) by (vm_compute; reflexivity).
  assert (Hl : is_Some (fields_of list_heap !! 0)) by (eexists; reflexivity).
  assert (Hb : clone_bound list_heap list_rank 0 <= 10) by (vm_compute; lia).
  assert (Hwf' : well_formedb node_heap (fun _ => 0) = true) by (vm_compute; reflexivity).
  assert (Hl' : is_Some (fields_of node_heap !! 1)) by (eexists; reflexivity).
  assert (Hb' : clone_bound node_heap (fun _ => 0) 1 <= 2) by (vm_compute; lia).
  split; [exact Hwf|]. split; [exact Hl|]. split; [exact Hb|].
  split; [exact (proj1 (proj2 (create_cloned_field_terminates pydantic_v1_list list_heap list_rank 0 10
                                 Hwf Hl Hb) eq_refl))|].
  split; [exact Hwf'|]. split; [exact Hl'|]. split; [exact Hb'|].
  exact (proj1 (proj2 (create_cloned_field_terminates pydantic_v1 node_heap (fun _ => 0) 1 2
                         Hwf' Hl' Hb') eq_refl)).
Defined.

End FieldsFacts.

(* ================================================================== *)
(** ** Status codes given as decimal strings *)

Module StatusCodeStrFacts.
Import PyInt PyStr StatusCode.

Lemma digit_char (d : Z) :
  (0 <= d < 10)%Z ->
  is_digit (ascii_of_nat (48 + Z.to_nat d)) = true /\
  digit_val (ascii_of_nat (48 + Z.to_nat d)) = d.
Proof.
  intros Hd. unfold is_digit, digit_val.
  rewrite nat_ascii_embedding by lia. split.
  - apply andb_true_iff. split; apply Nat.leb_le; lia.
  - rewrite Nat.add_comm, Nat.add_sub. apply Z2Nat.id. lia.
Qed.

(** [dec_digits] puts digits in front of [acc], at least one when it has
    fuel. *)
Lemma dec_digits_shape (fuel : nat) :
  forall (n : Z) (acc : list ascii),
  exists D, dec_digits fuel n acc = D ++ acc /\ Forall (fun c => is_digit c = true) D /\
            (fuel <> O -> D <> []).
Proof.
  induction fuel as [|fuel IH]; intros n acc.
  - exists []. split; [reflexivity|]. split; [constructor | intros []; reflexivity].
  - cbn [dec_digits].
    set (d := ascii_of_nat (48 + Z.to_nat (n mod 10))).
    assert (Hd : is_digit d = true)
      by (apply digit_char; apply Z.mod_pos_bound; lia).
    destruct (n <? 10)%Z.
    + exists [d]. split; [reflexivity|]. split; [repeat constructor; exact Hd | congruence].
    + destruct (IH (n / 10)%Z (d :: acc)) as (D & -> & HD & _).
      exists (D ++ [d]). split; [now rewrite <- app_assoc|]. split.
      * apply Forall_app. split; [exact HD | repeat constructor; exact Hd].
      * intros _. destruct D; discriminate.
Qed.

(** Reading back the digits of [n] continues the accumulator [a] by
    [n]. *)
Lemma digits_dec_digits (fuel : nat) :
  forall (n : Z) (acc : list ascii) (a : Z),
  (0 <= n < 2 ^ Z.of_nat fuel)%Z ->
  exists k : nat, digits a false (dec_digits fuel n acc) =
                  digits (a * 10 ^ Z.of_nat k + n) false acc.
Proof.
  induction fuel as [|fuel IH]; intros n acc a Hn.
  - simpl in Hn. assert (n = 0%Z) as -> by lia.
    exists O. simpl. now rewrite Z.mul_1_r, Z.add_0_r.
  - cbn [dec_digits].
    assert (Hm : (0 <= n mod 10 < 10)%Z) by (apply Z.mod_pos_bound; lia).
    destruct (digit_char (n mod 10) Hm) as [Hd Hv].
    pose proof (Z.div_mod n 10 ltac:(lia)) as Hdm.
    destruct (n <? 10)%Z eqn:E.
    + apply Z.ltb_lt in E. exists 1%nat. cbn [digits]. rewrite Hd, Hv.
      rewrite Z.mod_small by lia. replace (a * 10 ^ Z.of_nat 1 + n)%Z with (a * 10 + n)%Z by (simpl; lia). reflexivity.
    + apply Z.ltb_ge in E.
      assert (Hpow : (2 ^ Z.of_nat (S fuel) = 2 * 2 ^ Z.of_nat fuel)%Z)
        by (rewrite Nat2Z.inj_succ, Z.pow_succ_r by lia; reflexivity).
      assert (Hq : (0 <= n / 10 < 2 ^ Z.of_nat fuel)%Z).
      { split; [apply Z.div_pos; lia|].
        assert (n / 10 <= n / 2)%Z by (apply Z.div_le_compat_l; lia).
        assert (n / 2 < 2 ^ Z.of_nat fuel)%Z by (apply Z.div_lt_upper_bound; lia).
        lia. }
      destruct (IH (n / 10)%Z (ascii_of_nat (48 + Z.to_nat (n mod 10)) :: acc) a Hq) as [k Hk]. rewrite Hk.
      exists (S k). cbn [digits]. rewrite Hd, Hv. f_equal.
      rewrite Nat2Z.inj_succ, Z.pow_succ_r by lia. lia.
Qed.

Lemma digit_not_space (c : ascii) : is_digit c = true -> is_space c = false.
Proof. destruct c as [[] [] [] [] [] [] [] []]; vm_compute; congruence. Qed.

Lemma drop_space_id (l : list ascii) :
  Forall (fun c => is_space c = false) l -> drop_space l = l.
Proof. intros H. destruct H as [|c l Hc _]; [reflexivity|]. simpl. now rewrite Hc. Qed.

Lemma strip_id (l : list ascii) :
  Forall (fun c => is_space c = false) l -> strip l = l.
Proof.
  intros H. unfold strip. rewrite (drop_space_id l H).
  rewrite (drop_space_id (rev l)) by (apply Forall_rev; exact H). apply rev_involutive.
Qed.

Lemma unsigned_digits (c : ascii) (t : list ascii) :
  is_digit c = true -> unsigned (c :: t) = digits 0 false (c :: t).
Proof. intros Hc. simpl. now rewrite Hc. Qed.

(** The digits of [k >= 0] read back as [k]. *)
Lemma unsigned_dec_digits (k : Z) :
  (0 <= k)%Z ->
  let D := dec_digits (S (Z.to_nat (Z.log2 k))) k [] in
  Forall (fun c => is_digit c = true) D /\ unsigned D = Some k.
Proof.
  intros Hk D.
  destruct (dec_digits_shape (S (Z.to_nat (Z.log2 k))) k []) as (L & HL & HF & Hne).
  rewrite app_nil_r in HL. fold D in HL. rewrite HL. split; [exact HF|].
  destruct L as [|c t]; [exfalso; now apply Hne|].
  inversion HF as [|? ? Hc _]; subst.
  rewrite unsigned_digits by exact Hc. rewrite <- HL. unfold D.
  assert (Hb : (0 <= k < 2 ^ Z.of_nat (S (Z.to_nat (Z.log2 k))))%Z).
  { split; [exact Hk|]. rewrite Nat2Z.inj_succ, Z2Nat.id by apply Z.log2_nonneg.
    destruct (Z.eq_dec k 0%Z) as [->|Hk0]; [reflexivity|].
    apply Z.log2_spec. lia. }
  destruct (digits_dec_digits _ k [] 0%Z Hb) as [n Hn]. rewrite Hn. reflexivity.
Qed.

Lemma py_int_digit_head (s : string) (c : ascii) (t : list ascii) :
  strip (list_ascii_of_string s) = c :: t -> is_digit c = true ->
  py_int s = unsigned (c :: t).
Proof.
  intros Hs Hc. unfold py_int. rewrite Hs. revert Hc.
  destruct c as [[] [] [] [] [] [] [] []]; vm_compute; first [reflexivity | discriminate].
Qed.

(** [int(str(n)) == n]. *)
Lemma py_int_py_str (n : Z) : py_int (py_str n) = Some n.
Proof.
  unfold py_str. destruct (n <? 0)%Z eqn:E.
  - apply Z.ltb_lt in E.
    destruct (unsigned_dec_digits (- n) ltac:(lia)) as [HF HU].
    unfold py_int. rewrite list_ascii_of_string_of_list_ascii.
    rewrite strip_id.
    + change (option_map Z.opp (unsigned (dec_digits (S (Z.to_nat (Z.log2 (- n)))) (- n) [])) = Some n).
      rewrite HU. simpl. f_equal. lia.
    + constructor; [reflexivity|].
      eapply Forall_impl; [exact HF|]. intros c Hc. apply digit_not_space, Hc.
  - apply Z.ltb_ge in E.
    destruct (unsigned_dec_digits n E) as [HF HU].
    destruct (dec_digits (S (Z.to_nat (Z.log2 n))) n []) as [|c t] eqn:ED.
    + discriminate HU.
    + inversion HF as [|? ? Hc _]; subst.
      erewrite py_int_digit_head; [exact HU| |exact Hc].
      rewrite list_ascii_of_string_of_list_ascii. apply strip_id.
      eapply Forall_impl; [exact HF|]. intros c0 Hc0. apply digit_not_space, Hc0.
Qed.

(** The characters of [str(n)] are digits and the minus sign. *)
Lemma py_str_chars (n : Z) :
  forallb (fun c => is_digit c || Ascii.eqb c "-") (list_ascii_of_string (py_str n)) = true.
Proof.
  unfold py_str. rewrite list_ascii_of_string_of_list_ascii.
  assert (Hd : forall k, forallb (fun c => is_digit c || Ascii.eqb c "-")
                           (dec_digits (S (Z.to_nat (Z.log2 k))) k []) = true).
  { intros k. destruct (dec_digits_shape (S (Z.to_nat (Z.log2 k))) k []) as (D & -> & HF & _).
    rewrite app_nil_r. apply forallb_forall. intros c Hc.
    rewrite Forall_forall in HF. rewrite (HF c ltac:(now apply list_elem_of_In)). reflexivity. }
  destruct (n <? 0)%Z; [simpl; apply Hd | apply Hd].
Qed.

(** A status code passed as the decimal string [str(n)] of an integer
    is answered as the integer [n] itself: [int()] reads the string back
    as [n], and no such string is one of the patterned tokens. *)
Theorem is_body_allowed_str_int (n : Z) :
  py_int (py_str n) = Some n /\
  is_body_allowed_for_status_code (SStr (py_str n)) =
  is_body_allowed_for_status_code (SInt n).
Proof.
  split; [apply py_int_py_str|].
  assert (Hp : in_patterned (SStr (py_str n)) = false).
  { unfold in_patterned. destruct (existsb (String.eqb (py_str n)) patterned_fields) eqn:E; [|reflexivity].
    apply existsb_exists in E as (p & Hp & Heq). apply String.eqb_eq in Heq.
    pose proof (py_str_chars n) as Hc. rewrite Heq in Hc.
    simpl in Hp. repeat destruct Hp as [<-|Hp]; try discriminate Hc. destruct Hp. }
  unfold is_body_allowed_for_status_code. rewrite Hp. simpl.
  rewrite py_int_py_str. reflexivity.
Qed.

End StatusCodeStrFacts.

(* ================================================================== *)
(** ** Path templates put one after the other *)

Module PathParamsConcatFacts.
Import PathParams PathParamsFacts.

(** Decides [closed]. *)
Fixpoint closedb (l : list ascii) : bool :=
  match l with
  | [] => true
  | c :: t =>
      (if Ascii.eqb c "{" then existsb (Ascii.eqb "}") t else true) && closedb t
  end.

Lemma closedb_closed (l : list ascii) : closedb l = true -> closed l.
Proof.
  induction l as [|c t IH]; intros H; [apply closed_nil|].
  simpl in H. apply andb_true_iff in H as [Hc Ht].
  destruct (ascii_dec c "{") as [->|Hne].
  - apply closed_cons_open. split; [|apply IH, Ht].
    apply existsb_exists in Hc as (x & Hx & Heq). apply Ascii.eqb_eq in Heq. now subst.
  - apply closed_cons_other; [exact Hne | apply IH, Ht].
Qed.

Lemma list_ascii_of_string_app (s1 s2 : string) :
  list_ascii_of_string (s1 ++ s2) = list_ascii_of_string s1 ++ list_ascii_of_string s2.
Proof. induction s1 as [|c s1 IH]; simpl; [reflexivity | now rewrite IH]. Qed.

Lemma lazy_close_split (s x r : list ascii) :
  lazy_close s = Some (x, r) -> s = x ++ "}"%char :: r.
Proof.
  revert x. induction s as [|c t IH]; intros x H; simpl in H; [discriminate|].
  destruct (Ascii.eqb c "}") eqn:E1.
  - apply Ascii.eqb_eq in E1. subst. injection H as <- <-. reflexivity.
  - destruct (Ascii.eqb c "010"); [discriminate|].
    destruct (lazy_close t) as [[x' r']|]; [|discriminate].
    simpl in H. injection H as <- <-. simpl. f_equal. apply IH. reflexivity.
Qed.

(** A closing brace in [b] ends the lazy match inside [b]. *)
Lemma lazy_close_app (b c : list ascii) :
  In "}"%char b ->
  lazy_close (b ++ c) = option_map (fun '(x, r) => (x, r ++ c)) (lazy_close b).
Proof.
  induction b as [|c0 b IH]; intros Hin; [destruct Hin|]. simpl.
  destruct (Ascii.eqb c0 "}") eqn:E1; [reflexivity|].
  destruct (Ascii.eqb c0 "010"); [reflexivity|].
  assert (Hb : In "}"%char b).
  { destruct Hin as [Heq|Hin]; [subst c0; vm_compute in E1; discriminate E1 | exact Hin]. }
  rewrite (IH Hb). destruct (lazy_close b) as [[x r]|]; reflexivity.
Qed.

Lemma match_at_other (c : ascii) (t : list ascii) :
  c <> "{"%char -> match_at (c :: t) = None.
Proof. intros Hc. destruct c as [[] [] [] [] [] [] [] []]; try reflexivity; congruence. Qed.

(** Enough fuel gives the same scan. *)
Lemma findall_fuel_enough (n : nat) :
  forall (s : list ascii) (f1 f2 : nat),
  length s <= n -> length s <= f1 -> length s <= f2 ->
  findall_fuel f1 s = findall_fuel f2 s.
Proof.
  induction n as [|n IH]; intros s f1 f2 Hn H1 H2.
  { destruct s; [|simpl in Hn; lia]. destruct f1, f2; reflexivity. }
  destruct s as [|c t]; [destruct f1, f2; reflexivity|].
  destruct f1 as [|f1]; [simpl in H1; lia|]. destruct f2 as [|f2]; [simpl in H2; lia|].
  simpl in Hn, H1, H2. cbn [findall_fuel].
  destruct (match_at (c :: t)) as [[x r]|] eqn:E.
  - assert (Hr : length r < S (length t)).
    { destruct (ascii_dec c "{") as [->|Hc]; [|rewrite match_at_other in E by exact Hc; discriminate].
      simpl in E. apply lazy_close_split in E. subst t.
      rewrite length_app. simpl. lia. }
    f_equal. apply IH; lia.
  - apply IH; lia.
Qed.

Lemma findall_fuel_app (n : nat) :
  forall (s t : list ascii) (fuel : nat),
  length s <= n -> closed s -> length (s ++ t) <= fuel ->
  findall_fuel fuel (s ++ t) =
  findall_fuel (length s) s ++ findall_fuel (length t) t.
Proof.
  induction n as [|n IH]; intros s t fuel Hn Hs Hf.
  { destruct s; [|simpl in Hn; lia]. simpl in *. apply (findall_fuel_enough (length t)); lia. }
  destruct s as [|c s'].
  { simpl in *. apply (findall_fuel_enough (length t)); lia. }
  destruct fuel as [|fuel]; [simpl in Hf; lia|].
  simpl in Hn, Hf. rewrite length_app in Hf.
  cbn [length findall_fuel app].
  destruct (ascii_dec c "{") as [->|Hc].
  - apply closed_cons_open in Hs as [Hin Hs'].
    cbn [match_at]. rewrite (lazy_close_app s' t Hin).
    destruct (lazy_close s') as [[x r]|] eqn:E; simpl.
    + apply lazy_close_split in E. subst s'.
      assert (Hr : closed r)
        by (apply (closed_app_r (x ++ ["}"%char])); now rewrite <- app_assoc).
      rewrite length_app in Hn, Hf. simpl in Hn, Hf.
      f_equal. rewrite (IH r t fuel ltac:(lia) Hr ltac:(rewrite length_app; lia)).
      f_equal. apply (findall_fuel_enough (length r)); rewrite ?length_app; simpl; lia.
    + apply IH; [lia | exact Hs' | rewrite length_app; lia].
  - apply closed_cons_other in Hs; [|exact Hc].
    rewrite (match_at_other c (s' ++ t) Hc), (match_at_other c s' Hc).
    apply IH; [lia | exact Hs | rewrite length_app; lia].
Qed.

(** Appending a path template [p2] to a template [p1] whose every [{]
    is closed by a [}] (as a router prefix in front of a route path):
    the names found are those of [p1] followed by those of [p2], so the
    parameter set is the union of the two sets. *)
Theorem get_path_param_names_app (p1 p2 : string) :
  closed (list_ascii_of_string p1) ->
  findall_braces (p1 ++ p2) = findall_braces p1 ++ findall_braces p2 /\
  get_path_param_names (p1 ++ p2) = get_path_param_names p1 ∪ get_path_param_names p2.
Proof.
  intros Hc.
  assert (Hf : findall_braces (p1 ++ p2) = findall_braces p1 ++ findall_braces p2).
  { unfold findall_braces. rewrite list_ascii_of_string_app.
    apply (findall_fuel_app (length (list_ascii_of_string p1))); [lia | exact Hc | lia]. }
  split; [exact Hf|]. unfold get_path_param_names. rewrite Hf. apply list_to_set_app_L.
Qed.

Lemma get_path_param_names_app_witness :
  closed (list_ascii_of_string "/users/{user_id}") /\
  get_path_param_names ("/users/{user_id}" ++ "/items/{item_id}") =
  get_path_param_names "/users/{user_id}" ∪ get_path_param_names "/items/{item_id}".
Proof.
  assert (Hc : closed (list_ascii_of_string "/users/{user_id}"))
    by (apply closedb_closed; vm_compute; reflexivity).
  split; [exact Hc|]. apply (get_path_param_names_app "/users/{user_id}" "/items/{item_id}" Hc).
Defined.

End PathParamsConcatFacts.

(* ================================================================== *)
(** ** Operation ids *)

Module OperationIdFacts.
Import OperationId PathParamsConcatFacts.

Lemma sub_nonword_app (s1 s2 : string) :
  sub_nonword (s1 ++ s2) = (sub_nonword s1 ++ sub_nonword s2)%string.
Proof.
  induction s1 as [|c s1 IH]; [reflexivity|].
  exact (f_equal (String (if is_word c then c else "_"%char)) IH).
Qed.

Lemma is_word_lower_char (c : ascii) : is_word (lower_char c) = is_word c.
Proof. destruct c as [[] [] [] [] [] [] [] []]; vm_compute; reflexivity. Qed.

Lemma lower_words (s : string) :
  forallb is_word (list_ascii_of_string (lower s)) =
  forallb is_word (list_ascii_of_string s).
Proof.
  induction s as [|c s IH]; cbn [lower list_ascii_of_string forallb]; [reflexivity|].
  now rewrite is_word_lower_char, IH.
Qed.

Lemma sub_nonword_words (s : string) :
  forallb is_word (list_ascii_of_string (sub_nonword s)) = true.
Proof.
  induction s as [|c s IH]; cbn [sub_nonword list_ascii_of_string forallb]; [reflexivity|].
  destruct (is_word c) eqn:E; cbn [andb]; [now rewrite E | exact IH].
Qed.

Lemma sub_nonword_id (s : string) :
  forallb is_word (list_ascii_of_string s) = true -> sub_nonword s = s.
Proof.
  induction s as [|c s IH]; cbn [sub_nonword list_ascii_of_string forallb]; [reflexivity|].
  intros H. apply andb_true_iff in H as [Hc Hs]. now rewrite Hc, (IH Hs).
Qed.

(** When the first method consists of word characters (as HTTP method
    names do), the id consists of word characters only: it matches
    [^\w+$], and [re.sub(r"\W", "_", ...)] leaves it as it is. *)
Theorem generate_unique_id_words (r : route) (m : string) (ms : list string) :
  methods r = m :: ms -> forallb is_word (list_ascii_of_string m) = true ->
  exists id, generate_unique_id r = Some id /\
    forallb is_word (list_ascii_of_string id) = true /\ sub_nonword id = id.
Proof.
  intros Hm Hw. unfold generate_unique_id. rewrite Hm.
  eexists. split; [reflexivity|].
  assert (H : forallb is_word (list_ascii_of_string
                 (sub_nonword (name r ++ path_format r) ++ "_" ++ lower m)) = true).
  { rewrite !list_ascii_of_string_app, !forallb_app, sub_nonword_words, lower_words, Hw.
    reflexivity. }
  split; [exact H | apply sub_nonword_id, H].
Qed.

Lemma generate_unique_id_words_witness :
  exists id, generate_unique_id (Route "read_item" "/items/{item_id}" ["GET"]) = Some id /\
    forallb is_word (list_ascii_of_string id) = true /\ sub_nonword id = id.
Proof. apply (generate_unique_id_words _ "GET" []); reflexivity. Defined.

(** Routes whose name followed by path format differ in one position,
    where the first has a non-word character and the second a non-word
    character or [_], get the same id: the id does not tell them apart. *)
Theorem generate_unique_id_nonword_collision (r1 r2 : route) (a b : string) (c1 c2 : ascii) :
  (name r1 ++ path_format r1)%string = (a ++ String c1 b)%string ->
  (name r2 ++ path_format r2)%string = (a ++ String c2 b)%string ->
  is_word c1 = false -> is_word c2 = false \/ c2 = "_"%char ->
  methods r1 = methods r2 ->
  generate_unique_id r1 = generate_unique_id r2.
Proof.
  intros H1 H2 Hc1 Hc2 Hm. unfold generate_unique_id. cbv zeta.
  rewrite H1, H2, Hm, !sub_nonword_app. cbn [sub_nonword]. rewrite Hc1.
  assert (Hs : (if is_word c2 then c2 else "_"%char) = "_"%char)
    by (destruct Hc2 as [-> | ->]; reflexivity).
  now rewrite Hs.
Qed.

Lemma generate_unique_id_nonword_collision_witness :
  generate_unique_id (Route "read_file" "/files/{name}.txt" ["GET"]) =
  generate_unique_id (Route "read_file" "/files/{name}_txt" ["GET"]).
Proof.
  apply (generate_unique_id_nonword_collision _ _ "read_file/files/{name}" "txt" "." "_");
    [reflexivity | reflexivity | reflexivity | right; reflexivity | reflexivity].
Defined.

End OperationIdFacts.

(* ================================================================== *)
(** ** The keys of a merged dictionary *)

Module DeepDictKeysFacts.
Import DeepDict DeepDictFacts.

Section KeysFacts.
Context {K A : Type} `{EqDecision K}.
Local Abbreviation dict := (@dict K A).
Local Abbreviation pyval := (@pyval K A).

Lemma dict_set_keys (k : K) (v : pyval) (d : dict) :
  map fst (dict_set k v d) =
  if bool_decide (k ∈ map fst d) then map fst d else map fst d ++ [k].
Proof.
  induction d as [|[k' v'] d IH]; cbn [dict_set map fst].
  - rewrite bool_decide_false by apply not_elem_of_nil. reflexivity.
  - destruct (decide (k = k')) as [->|Hne]; cbn [map fst].
    + rewrite bool_decide_true by (apply elem_of_cons; now left). reflexivity.
    + rewrite IH. destruct (bool_decide (k ∈ map fst d)) eqn:E.
      * apply bool_decide_eq_true in E.
        rewrite bool_decide_true by (apply elem_of_cons; now right). reflexivity.
      * apply bool_decide_eq_false in E.
        rewrite bool_decide_false; [reflexivity|].
        intros Hin. apply elem_of_cons in Hin as [?|?]; auto.
Qed.

Lemma merge_item_keys (main_dict : dict) key value :
  map fst (merge_item main_dict key value) =
  if bool_decide (key ∈ map fst main_dict) then map fst main_dict
  else map fst main_dict ++ [key].
Proof.
  unfold merge_item.
  destruct (dict_get key main_dict) as [[a|l|d]|], value; apply dict_set_keys.
Qed.

(** [deep_dict_update] keeps every key of [main_dict] in its place and
    appends the keys of [update_dict] that [main_dict] lacks, in the
    order of [update_dict]; it never removes or reorders a key. *)
Theorem deep_dict_update_keys (main_dict update_dict : dict) :
  NoDup (map fst update_dict) ->
  map fst (deep_dict_update main_dict update_dict) =
  map fst main_dict ++
    List.filter (fun k => negb (bool_decide (k ∈ map fst main_dict))) (map fst update_dict).
Proof.
  revert main_dict. induction update_dict as [|[key value] rest IH]; intros main_dict Hnd.
  - simpl. now rewrite app_nil_r.
  - rewrite deep_dict_update_cons. simpl in Hnd. apply NoDup_cons in Hnd as [Hk Hnd].
    rewrite (IH _ Hnd), merge_item_keys. simpl.
    destruct (bool_decide (key ∈ map fst main_dict)) eqn:E; simpl; [reflexivity|].
    rewrite <- app_assoc. simpl. f_equal. f_equal.
    apply filter_ext_in. intros k Hin.
    assert (Hne : k <> key) by (intros ->; apply Hk, list_elem_of_In, Hin).
    f_equal. apply bool_decide_ext. rewrite elem_of_app, list_elem_of_singleton.
    split; [intros [?|?]; [assumption | contradiction] | intros ?; now left].
Qed.

Lemma dict_set_new (k : K) (v : pyval) (d : dict) :
  k ∉ map fst d -> dict_set k v d = d ++ [(k, v)].
Proof.
  induction d as [|[k' v'] d IH]; intros Hk; simpl; [reflexivity|].
  simpl in Hk. apply not_elem_of_cons in Hk as [Hne Hk].
  rewrite decide_False by exact Hne. now rewrite IH.
Qed.

Lemma merge_item_new (main_dict : dict) key value :
  key ∉ map fst main_dict -> merge_item main_dict key value = main_dict ++ [(key, value)].
Proof.
  intros Hk. unfold merge_item.
  destruct (dict_get key main_dict) eqn:E.
  - exfalso. apply Hk. eapply dict_get_in, E.
  - destruct value; apply dict_set_new, Hk.
Qed.

(** When no key of [update_dict] is in [main_dict] (in particular when
    [main_dict] is empty), [deep_dict_update] appends the items of
    [update_dict], values as they are, after those of [main_dict]. *)
Theorem deep_dict_update_disjoint (main_dict update_dict : dict) :
  NoDup (map fst update_dict) ->
  (forall k, k ∈ map fst update_dict -> k ∉ map fst main_dict) ->
  deep_dict_update main_dict update_dict = main_dict ++ update_dict.
Proof.
  revert main_dict. induction update_dict as [|[key value] rest IH]; intros main_dict Hnd Hdis.
  - simpl. now rewrite app_nil_r.
  - rewrite deep_dict_update_cons. simpl in Hnd. apply NoDup_cons in Hnd as [Hk Hnd].
    rewrite merge_item_new by (apply Hdis; simpl; apply elem_of_cons; now left).
    rewrite IH; [now rewrite <- app_assoc | exact Hnd|].
    intros k Hin. rewrite map_app. simpl. intros Hin'.
    apply elem_of_app in Hin' as [Hm|Hm].
    + apply (Hdis k); [simpl; apply elem_of_cons; now right | exact Hm].
    + apply list_elem_of_singleton in Hm. subst. contradiction.
Qed.

End KeysFacts.

Lemma deep_dict_update_keys_witness :
  map fst (deep_dict_update [("a", PAtom 1%Z)] [("b", PAtom 2%Z); ("a", PList [])] : sdict) =
  ["a"; "b"].
Proof.
  rewrite (deep_dict_update_keys _ _); [reflexivity|].
  repeat constructor; simpl; set_solver.
Defined.

Lemma deep_dict_update_disjoint_witness :
  deep_dict_update [] [("a", PAtom 1%Z); ("b", PDict [])] =
  ([("a", PAtom 1%Z); ("b", PDict [])] : sdict).
Proof.
  rewrite (deep_dict_update_disjoint _ _); [reflexivity | repeat constructor; simpl; set_solver |].
  intros k _ Hk. exact (not_elem_of_nil k Hk).
Defined.

End DeepDictKeysFacts.
